(** * Cookie extractor: classification, deduplication, summary and delivery

    A shallow embedding of [background.js] (class [CookieExtractor]).

    Conventions of the embedding:
    - JavaScript strings are [string]; only equality, order and
      concatenation of characters matter here.
    - The boolean cookie attributes are [bool]; [expirationDate], an
      optional number of seconds, is [option Q] and is tested through
      JavaScript truthiness ([js_truthy_num]).
    - Lengths and sizes are [nat]; numbers produced by arithmetic that can
      leave the integers (division, [Math.max] of nothing) are [jsnum].
      Quotients are exact rationals: a quotient of two integers below
      2^52 and its double-precision value round to the same integer.
    - Asynchronous methods run in the monad [M]: a reader of the outside
      world (health endpoint, cookie store, storage endpoint, clock), a
      writer of the observable events, and an exception. Console output
      is not an event.
    - [processCookies] is embedded for cookies whose expiration dates
      [Date] can hold ([validExpiration]); outside that range
      [toISOString] throws, which the embedding does not follow. *)

From Stdlib Require Import QArith Qround Ascii.
From stdpp Require Import gmap strings list sorting pretty.

Local Open Scope Z_scope.

(** ** Data model *)

Module Cookie.
(** A record of [chrome.cookies.Cookie]. *)
Record t := mk {
  name : string;
  value : string;
  domain : string;
  path : string;
  secure : bool;
  httpOnly : bool;
  sameSite : string;
  session : bool;
  expirationDate : option Q;
  hostOnly : bool;
  storeId : string
}.
End Cookie.

Module Processed.
(** The object built by [processCookies] for each cookie. *)
Record t := mk {
  name : string;
  value : string;
  domain : string;
  path : string;
  secure : bool;
  httpOnly : bool;
  sameSite : string;
  session : bool;
  expirationDate : option string;
  hostOnly : bool;
  storeId : string;
  cookieType : string;
  securityLevel : string;
  size : nat
}.
End Processed.

(** JavaScript numbers, as far as the summary needs them. *)
Inductive jsnum :=
| JNum (q : Q)
| JNaN
| JPosInfinity
| JNegInfinity.

(** [a / b] on finite operands. *)
Definition js_div (a b : Q) : jsnum :=
  if Qeq_bool b 0%Q then
    match Qcompare a 0%Q with
    | Eq => JNaN
    | Gt => JPosInfinity
    | Lt => JNegInfinity
    end
  else JNum (a / b)%Q.

(** [Math.round]: the nearest integer, halves towards plus infinity. *)
Definition Math_round (x : jsnum) : jsnum :=
  match x with
  | JNum q => JNum (inject_Z (Qfloor (q + (1 # 2))%Q))
  | _ => x
  end.

(** [Math.max(...xs)] for natural numbers; minus infinity for no argument. *)
Definition Math_max (xs : list nat) : jsnum :=
  match xs with
  | [] => JNegInfinity
  | x :: rest => JNum (inject_Z (Z.of_nat (foldl Nat.max x rest)))
  end.

(** Truthiness of an optional number: [undefined] and [0] are falsy. *)
Definition js_truthy_num (x : option Q) : bool :=
  match x with
  | None => false
  | Some q => negb (Qeq_bool q 0%Q)
  end.

(** Truthiness of an optional string: [undefined] and the empty string
    are falsy. *)
Definition js_truthy_str (x : option string) : bool :=
  match x with
  | None | Some "" => false
  | Some _ => true
  end.

(** ** Strings *)

Definition dquote : string := String "034"%char "".
Definition pipe : ascii := "|"%char.
Definition dot : ascii := "."%char.

(** [s.split(sep)] for a one-character separator. *)
Fixpoint split (sep : ascii) (s : string) : list string :=
  match s with
  | "" => [""]
  | String c s' =>
      if decide (c = sep) then "" :: split sep s'
      else match split sep s' with
           | [] => [String c ""]
           | w :: ws => String c w :: ws
           end
  end.

(** [parts.join(sep)]. *)
Fixpoint join (sep : string) (parts : list string) : string :=
  match parts with
  | [] => ""
  | [w] => w
  | w :: ws => w +:+ sep +:+ join sep ws
  end.

(** [s.includes(t)]. *)
Fixpoint includes (s t : string) : bool :=
  String.prefix t s ||
  match s with
  | "" => false
  | String _ s' => includes s' t
  end.

(** The character [c] occurs in [s]. *)
Fixpoint occurs (c : ascii) (s : string) : bool :=
  match s with
  | "" => false
  | String c' s' => bool_decide (c' = c) || occurs c s'
  end.

(** [s.replace(/[:.]/g, '-')]. *)
Fixpoint replaceColonDot (s : string) : string :=
  match s with
  | "" => ""
  | String c s' =>
      String (if decide (c = ":"%char ∨ c = "."%char) then "-"%char else c)
             (replaceColonDot s')
  end.

(** ** Classification *)

(** [categorizeCookie]: a cascade of early returns. *)
Definition categorizeCookie (cookie : Cookie.t) : string :=
  if Cookie.httpOnly cookie && Cookie.secure cookie then "secure-httponly"
  else if Cookie.httpOnly cookie then "httponly"
  else if Cookie.secure cookie then "secure"
  else if Cookie.session cookie then "session"
  else "regular".

(** The local variable [score] of [assessSecurityLevel], after the five
    conditional increments. *)
Definition securityScore (cookie : Cookie.t) : Z :=
  let score := 0 in
  let score := if Cookie.secure cookie then score + 2 else score in
  let score := if Cookie.httpOnly cookie then score + 2 else score in
  let score :=
    if bool_decide (Cookie.sameSite cookie = "Strict") then score + 2 else score in
  let score :=
    if bool_decide (Cookie.sameSite cookie = "Lax") then score + 1 else score in
  let score :=
    if negb (Cookie.session cookie) && js_truthy_num (Cookie.expirationDate cookie)
    then score + 1 else score in
  score.

Definition assessSecurityLevel (cookie : Cookie.t) : string :=
  let score := securityScore cookie in
  if 6 <=? score then "high"
  else if 3 <=? score then "medium"
  else "low".

(** [processCookies]; [toISO] stands for
    [x => new Date(x * 1000).toISOString()] on the dates it converts.
    [toISOString] throws a RangeError when the time value is outside the
    range of [Date], that is for a truthy [expirationDate] [x] with
    [|x * 1000| > 8.64e15]; then [processCookies] throws as a whole.  This
    definition gives the array that is returned when no conversion throws
    ([validExpiration] below says when that is); the statements that
    enumerate failures are made under that condition. *)
Definition processCookies (toISO : Q → string) (cookies : list Cookie.t)
  : list Processed.t :=
  (λ cookie,
    {| Processed.name := Cookie.name cookie;
       Processed.value := Cookie.value cookie;
       Processed.domain := Cookie.domain cookie;
       Processed.path := Cookie.path cookie;
       Processed.secure := Cookie.secure cookie;
       Processed.httpOnly := Cookie.httpOnly cookie;
       Processed.sameSite := Cookie.sameSite cookie;
       Processed.session := Cookie.session cookie;
       Processed.expirationDate :=
         if js_truthy_num (Cookie.expirationDate cookie)
         then toISO <$> Cookie.expirationDate cookie else None;
       Processed.hostOnly := Cookie.hostOnly cookie;
       Processed.storeId := Cookie.storeId cookie;
       Processed.cookieType := categorizeCookie cookie;
       Processed.securityLevel := assessSecurityLevel cookie;
       Processed.size :=
         String.length (Cookie.name cookie +:+ Cookie.value cookie) |})
  <$> cookies.

(** ** Deduplication *)

(** The template string [`${name}|${domain}|${path}`]. *)
Definition cookieKey (cookie : Cookie.t) : string :=
  Cookie.name cookie +:+ "|" +:+ Cookie.domain cookie +:+ "|" +:+ Cookie.path cookie.

(** [cookies.filter(...)] with the callback's captured set [seen]. *)
Fixpoint filterUnseen (seen : gset string) (cookies : list Cookie.t)
  : list Cookie.t :=
  match cookies with
  | [] => []
  | cookie :: rest =>
      let key := cookieKey cookie in
      if decide (key ∈ seen) then filterUnseen seen rest
      else cookie :: filterUnseen ({[key]} ∪ seen) rest
  end.

Definition removeDuplicateCookies (cookies : list Cookie.t) : list Cookie.t :=
  filterUnseen ∅ cookies.

(** ** Summary *)

Module Summary.
Record t := mk {
  totalCookies : nat;
  uniqueDomains : nat;
  domains : list string;
  cookieTypeDistribution : gmap string nat;
  securityLevelDistribution : gmap string nat;
  largestCookie : jsnum;
  averageCookieSize : jsnum
}.
End Summary.

(** [[...new Set(xs)]]: a JavaScript [Set] iterates in insertion order, so
    the spread keeps the first occurrence of each value, in order. *)
Definition Set_add (s : list string) (x : string) : list string :=
  if decide (x ∈ s) then s else s ++ [x].

Definition Set_spread (xs : list string) : list string :=
  foldl Set_add [] xs.

(** [xs.sort()] on strings: ascending in the order of the character
    codes. The order is total and antisymmetric, so the result does not
    depend on the sorting algorithm. *)
Definition Array_sort (xs : list string) : list string :=
  merge_sort String.le xs.

(** [acc[k] = (acc[k] || 0) + 1] on an accumulator that starts as [{}],
    for a key [k] that a plain object does not inherit; the five
    categories and the three tiers are such keys.  For an inherited name
    ([constructor], [toString], [__proto__], ...) the read [acc[k]] finds
    the inherited value instead of a count; such keys are outside this
    model, and the statements about the histograms are made for the
    labels that [categorizeCookie] and [assessSecurityLevel] return. *)
Definition increment (acc : gmap string nat) (k : string) : gmap string nat :=
  <[k := (default 0 (acc !! k) + 1)%nat]> acc.

Definition generateSummary (cookies : list Processed.t) : Summary.t :=
  let domains := Set_spread (Processed.domain <$> cookies) in
  let cookieTypes :=
    foldl (λ acc cookie, increment acc (Processed.cookieType cookie)) ∅ cookies in
  let securityLevels :=
    foldl (λ acc cookie, increment acc (Processed.securityLevel cookie)) ∅ cookies in
  {| Summary.totalCookies := length cookies;
     Summary.uniqueDomains := length domains;
     Summary.domains := Array_sort domains;
     Summary.cookieTypeDistribution := cookieTypes;
     Summary.securityLevelDistribution := securityLevels;
     Summary.largestCookie := Math_max (Processed.size <$> cookies);
     Summary.averageCookieSize :=
       Math_round
         (js_div
            (inject_Z (Z.of_nat
               (foldl (λ sum c, (sum + Processed.size c)%nat) 0%nat cookies)))
            (inject_Z (Z.of_nat (length cookies)))) |}.

(** ** The outside world *)

Record JsError := { errName : string; errMessage : string }.

(** [new Error(message)]. *)
Definition Error (message : string) : JsError :=
  {| errName := "Error"; errMessage := message |}.

(** The parsed body of a reply of the storage endpoint. *)
Record ReplyBody := { success : bool; error : option string }.

(** A [fetch] response; [json] is what [response.json()] settles to. *)
Record Response := {
  ok : bool;
  status : N;
  statusText : string;
  json : JsError + ReplyBody
}.

Inductive FetchOutcome :=
| Resolved (response : Response)
| Rejected (reason : JsError).

Record Metadata := {
  extractedAt : string;
  userAgent : string;
  metaTotalCookies : nat;
  extractor : string
}.

(** The object [cookieData] sent to the storage endpoint. *)
Record Envelope := {
  metadata : Metadata;
  envCookies : list Processed.t;
  summary : Summary.t;
  filename : string
}.

(** What the extension does to the outside, in order. *)
Inductive Event :=
| EvStatusProbe
| EvGetAll (domain : option string)
| EvPost (body : Envelope)
| EvSleep (ms : nat).

(** The outside answers as a function of what has happened so far. *)
Record World := {
  fetchStatus : list Event → FetchOutcome;
  fetchCookies : list Event → Envelope → FetchOutcome;
  cookiesGetAll : list Event → option string → JsError + list Cookie.t;
  clockISO : list Event → string;
  urlHostname : string → JsError + string;
  dateISO : Q → string
}.

(** ** The monad of the asynchronous methods *)

Definition M (A : Type) : Type :=
  World → list Event → (JsError + A) * list Event.

#[export] Instance M_ret : MRet M := λ A x _ h, (inr x, h).

#[export] Instance M_bind : MBind M := λ A B f m w h,
  match m w h with
  | (inl e, h') => (inl e, h')
  | (inr x, h') => f x w h'
  end.

Definition throw {A} (e : JsError) : M A := λ _ h, (inl e, h).

Definition try_catch {A} (body : M A) (handler : JsError → M A) : M A :=
  λ w h,
    match body w h with
    | (inl e, h') => handler e w h'
    | r => r
    end.

Definition ask : M World := λ w h, (inr w, h).
Definition history : M (list Event) := λ _ h, (inr h, h).
Definition emit (e : Event) : M unit := λ _ h, (inr (), h ++ [e]).

Definition settle {A} (r : JsError + A) : M A :=
  match r with
  | inl e => throw e
  | inr x => mret x
  end.

Definition await (o : FetchOutcome) : M Response :=
  match o with
  | Resolved response => mret response
  | Rejected reason => throw reason
  end.

(** [fetch(.../api/status, {method: 'GET', signal})]; an abort after the
    three seconds is a rejection. *)
Definition fetch_status : M Response :=
  w ← ask; h ← history; emit EvStatusProbe;; await (fetchStatus w h).

(** [fetch(.../api/cookies, {method: 'POST', body, signal})]; an abort
    after the ten seconds is a rejection named AbortError. *)
Definition fetch_cookies (body : Envelope) : M Response :=
  w ← ask; h ← history; emit (EvPost body);; await (fetchCookies w h body).

Definition chrome_cookies_getAll (domain : option string) : M (list Cookie.t) :=
  w ← ask; h ← history; emit (EvGetAll domain);; settle (cookiesGetAll w h domain).

(** [new Date().toISOString()]. *)
Definition now_ISO : M string :=
  w ← ask; h ← history; mret (clockISO w h).

(** [await new Promise(resolve => setTimeout(resolve, ms))]. *)
Definition sleep (ms : nat) : M unit := emit (EvSleep ms).

(** ** Delivery *)

(** The health probe came back with a success status. *)
Definition probeSucceeds (o : FetchOutcome) : bool :=
  match o with
  | Resolved response => ok response
  | Rejected _ => false
  end.

Definition serverNotRunning : string :=
  "Server is not running - please start with " +:+ dquote +:+ "npm start" +:+ dquote.

Definition serverTimeout : string :=
  "Server timeout - please check if server is running".

Definition cannotConnect : string :=
  "Cannot connect to server - please start server with "
    +:+ dquote +:+ "npm start" +:+ dquote.

(** [checkServerAvailability]: every failure of the probe is [false]. *)
Definition checkServerAvailability : M bool :=
  try_catch
    (response ← fetch_status; mret (ok response))
    (λ _, mret false).

Definition maxRetries : nat := 3.
Definition retryDelay : nat := 1000.

(** The [try] block of one iteration of the retry loop. *)
Definition postAttempt (cookieData : Envelope) : M unit :=
  response ← fetch_cookies cookieData;
  if negb (ok response) then
    throw (Error ("Server responded with " +:+ pretty (status response)
                    +:+ ": " +:+ statusText response))
  else
    result ← settle (json response);
    if negb (success result) then
      throw (Error ("Server error: " +:+
                      (if js_truthy_str (error result)
                       then default "" (error result) else "Unknown error")))
    else mret ().

(** The error raised after the last attempt, chosen by the caught one. *)
Definition finalError (caught : JsError) : JsError :=
  if decide (errName caught = "AbortError") then Error serverTimeout
  else if includes (errMessage caught) "Failed to fetch"
          || includes (errMessage caught) "NetworkError"
       then Error cannotConnect
       else Error ("Server error: " +:+ errMessage caught).

(** What the [try] block throws on a given outcome of the request;
    [None] when it reaches its [return]. *)
Definition attemptError (o : FetchOutcome) : option JsError :=
  match o with
  | Rejected reason => Some reason
  | Resolved response =>
      if negb (ok response) then
        Some (Error ("Server responded with " +:+ pretty (status response)
                       +:+ ": " +:+ statusText response))
      else
        match json response with
        | inl reason => Some reason
        | inr result =>
            if negb (success result) then
              Some (Error ("Server error: " +:+
                             (if js_truthy_str (error result)
                              then default "" (error result)
                              else "Unknown error")))
            else None
        end
  end.

Inductive Completion := Returned | Fallthrough.

(** [for (let attempt = ...; attempt <= maxRetries; attempt++)], with
    [remaining = maxRetries + 1 - attempt] iterations to go. *)
Fixpoint retryLoop (cookieData : Envelope) (attempt remaining : nat) : M unit :=
  match remaining with
  | O => mret ()
  | S remaining' =>
      c ← try_catch
            (postAttempt cookieData;; mret Returned)
            (λ caught,
               (if decide (attempt = maxRetries)
                then throw (finalError caught) else mret ());;
               (if decide (attempt < maxRetries)%nat
                then sleep retryDelay else mret ());;
               mret Fallthrough);
      match c with
      | Returned => mret ()
      | Fallthrough => retryLoop cookieData (S attempt) remaining'
      end
  end.

(** The object [cookieData], given the two readings of the clock. *)
Definition makeCookieData (cookies : list Processed.t) (prefix : string)
    (extractedAt stamp : string) : Envelope :=
  {| metadata :=
       {| extractedAt := extractedAt;
          userAgent := "Chrome Extension";
          metaTotalCookies := length cookies;
          extractor := "Advanced Cookie Extractor v1.0" |};
     envCookies := cookies;
     summary := generateSummary cookies;
     filename := prefix +:+ "_" +:+ replaceColonDot stamp +:+ ".json" |}.

Definition saveCookiesToFile (cookies : list Processed.t) (prefix : string)
  : M unit :=
  extractedAt ← now_ISO;
  stamp ← now_ISO;
  let cookieData := makeCookieData cookies prefix extractedAt stamp in
  retryLoop cookieData 1 maxRetries.

(** ** Extraction *)

Module AllResult.
Record t := mk { total : nat; cookies : list Processed.t; timestamp : string }.
End AllResult.

Module DomainResult.
Record t := mk {
  domain : string;
  total : nat;
  cookies : list Processed.t;
  timestamp : string
}.
End DomainResult.

Definition extractAllCookies : M AllResult.t :=
  try_catch
    (serverAvailable ← checkServerAvailability;
     if negb serverAvailable then throw (Error serverNotRunning)
     else
       cookies ← chrome_cookies_getAll None;
       w ← ask;
       let processedCookies := processCookies (dateISO w) cookies in
       saveCookiesToFile processedCookies "all_cookies";;
       timestamp ← now_ISO;
       mret {| AllResult.total := length cookies;
               AllResult.cookies := processedCookies;
               AllResult.timestamp := timestamp |})
    (λ caught,
       throw (Error ("Failed to extract all cookies: " +:+ errMessage caught))).

(** The array [cookies] of [extractCurrentDomainCookies] when it is
    handed to [removeDuplicateCookies]: the cookies of the host name and,
    pushed after them, those of the parent domain. *)
Definition domainCookies (domain : string) : M (list Cookie.t) :=
  cookies ← chrome_cookies_getAll (Some domain);
  let domainParts := split dot domain in
  if decide (2 < length domainParts)%nat then
    let parentDomain := join "." (drop 1 domainParts) in
    parentCookies ← chrome_cookies_getAll (Some parentDomain);
    mret (cookies ++ parentCookies)
  else mret cookies.

Definition extractCurrentDomainCookies (url : string) : M DomainResult.t :=
  try_catch
    (serverAvailable ← checkServerAvailability;
     if negb serverAvailable then throw (Error serverNotRunning)
     else
       w ← ask;
       domain ← settle (urlHostname w url);
       cookies ← domainCookies domain;
       let uniqueCookies := removeDuplicateCookies cookies in
       let processedCookies := processCookies (dateISO w) uniqueCookies in
       saveCookiesToFile processedCookies ("cookies_" +:+ domain);;
       timestamp ← now_ISO;
       mret {| DomainResult.domain := domain;
               DomainResult.total := length uniqueCookies;
               DomainResult.cookies := processedCookies;
               DomainResult.timestamp := timestamp |})
    (λ caught,
       throw (Error ("Failed to extract domain cookies: " +:+ errMessage caught))).

(** ** Statistics *)

Module Stats.
(** The object [stats] of [getCookieStatistics]. *)
Record t := mk {
  total : nat;
  httpOnly : nat;
  secure : nat;
  session : nat;
  sameSiteStrict : nat;
  sameSiteLax : nat;
  sameSiteNone : nat;
  domains : nat
}.
End Stats.

(** [cookies.filter(pred).length]. *)
Definition countIf (pred : Cookie.t → bool) (cookies : list Cookie.t) : nat :=
  length (List.filter pred cookies).

(** [getCookieStatistics]: one read of the whole store, no [try]. *)
Definition getCookieStatistics : M Stats.t :=
  cookies ← chrome_cookies_getAll None;
  let stats :=
    {| Stats.total := length cookies;
       Stats.httpOnly := countIf Cookie.httpOnly cookies;
       Stats.secure := countIf Cookie.secure cookies;
       Stats.session := countIf Cookie.session cookies;
       Stats.sameSiteStrict :=
         countIf (λ c, bool_decide (Cookie.sameSite c = "Strict")) cookies;
       Stats.sameSiteLax :=
         countIf (λ c, bool_decide (Cookie.sameSite c = "Lax")) cookies;
       Stats.sameSiteNone :=
         countIf (λ c, bool_decide (Cookie.sameSite c = "None")) cookies;
       Stats.domains := length (Set_spread (Cookie.domain <$> cookies)) |} in
  mret stats.

(** ** Message handling *)

Module Message.
(** A message of the popup; [url] is [message.url] as the [URL]
    constructor reads it, converted to a string. *)
Record t := mk { action : string; url : string }.
End Message.

(** The object handed to [sendResponse]: [{success: true, data}],
    [{success: true}] or [{success: false, error}]. *)
Inductive Reply :=
| ReplyAll (data : AllResult.t)
| ReplyDomain (data : DomainResult.t)
| ReplyStats (data : Stats.t)
| ReplyDone
| ReplyFailure (error : string).

Definition replySuccess (reply : Reply) : bool :=
  match reply with
  | ReplyFailure _ => false
  | _ => true
  end.

(** [handleMessage], returning the argument of its one call of
    [sendResponse]. The action openInTab starts [openExtractorInTab]
    without awaiting it: the tab commands are no events of [M], and
    neither their outcome nor their failure reaches the reply. *)
Definition handleMessage (message : Message.t) : M Reply :=
  try_catch
    (if decide (Message.action message = "extractAllCookies") then
       allCookies ← extractAllCookies;
       mret (ReplyAll allCookies)
     else if decide (Message.action message = "extractCurrentDomain") then
       currentCookies ← extractCurrentDomainCookies (Message.url message);
       mret (ReplyDomain currentCookies)
     else if decide (Message.action message = "getCookieStats") then
       stats ← getCookieStatistics;
       mret (ReplyStats stats)
     else if decide (Message.action message = "openInTab") then
       mret ReplyDone
     else mret (ReplyFailure "Unknown action"))
    (λ caught, mret (ReplyFailure (errMessage caught))).

(** ** Notions used in the statements *)

(** The contribution of one signal to the security score. *)
Definition points (b : bool) (n : Z) : Z := if b then n else 0.

(** The identity of a cookie that the deduplication is meant to use. *)
Definition cookieTriple (cookie : Cookie.t) : string * string * string :=
  (Cookie.name cookie, Cookie.domain cookie, Cookie.path cookie).

(** A computation only adds events to the history. *)
Definition extends {A} (m : M A) : Prop :=
  ∀ w h, ∃ t, (m w h).2 = h ++ t.

(** The number of requests to the storage endpoint in a history. *)
Fixpoint countPosts (h : list Event) : nat :=
  match h with
  | [] => 0
  | EvPost _ :: h' => S (countPosts h')
  | _ :: h' => countPosts h'
  end.

(** ** Sample inputs *)

Definition bankSession : Cookie.t :=
  Cookie.mk "sid" "4f2a" "bank.example" "/" true true "Strict" true None
            true "0".

(** Two cookies of one site whose names and paths differ but whose key
    strings coincide, because the separator occurs inside the fields. *)
Definition pipeInName : Cookie.t :=
  Cookie.mk "a|x.com|/" "1" "x.com" "/" false false "Lax" true None true "0".
Definition pipeInPath : Cookie.t :=
  Cookie.mk "a" "2" "x.com" "/|x.com|/" false false "Lax" true None true "0".

Definition hostCookie : Cookie.t :=
  Cookie.mk "theme" "dark" "a.b.example.com" "/" false false "Lax" true None
            true "0".
Definition parentCookie : Cookie.t :=
  Cookie.mk "sid" "77" ".b.example.com" "/" true true "Strict" false
            (Some (1893456000 # 1)%Q) false "0".

Definition storedReply : Response :=
  {| ok := true; status := 200; statusText := "OK";
     json := inr {| success := true; error := None |} |}.
Definition unavailableReply : Response :=
  {| ok := false; status := 503; statusText := "Service Unavailable";
     json := inl {| errName := "SyntaxError"; errMessage := "Unexpected token" |} |}.

(** A world whose endpoints answer, with one cookie on the host and one on
    its parent domain. *)
Definition onlineWorld : World :=
  {| fetchStatus := λ _, Resolved storedReply;
     fetchCookies := λ _ _, Resolved storedReply;
     cookiesGetAll := λ _ filter,
       inr (if decide (filter = Some "a.b.example.com") then [hostCookie]
            else if decide (filter = Some "b.example.com") then [parentCookie]
            else [hostCookie; parentCookie]);
     clockISO := λ _, "2024-05-01T10:00:00.000Z";
     urlHostname := λ _, inr "a.b.example.com";
     dateISO := λ _, "2030-01-01T00:00:00.000Z" |}.

(** The storage endpoint is unreachable for the first two requests. *)
Definition flakyWorld : World :=
  {| fetchStatus := fetchStatus onlineWorld;
     fetchCookies := λ h _,
       if decide (2 ≤ countPosts h)%nat then Resolved storedReply
       else Rejected {| errName := "TypeError"; errMessage := "Failed to fetch" |};
     cookiesGetAll := cookiesGetAll onlineWorld;
     clockISO := clockISO onlineWorld;
     urlHostname := urlHostname onlineWorld;
     dateISO := dateISO onlineWorld |}.

(** The storage endpoint never answers within the ten seconds. *)
Definition stalledWorld : World :=
  {| fetchStatus := fetchStatus onlineWorld;
     fetchCookies := λ _ _,
       Rejected {| errName := "AbortError";
                   errMessage := "The user aborted a request." |};
     cookiesGetAll := cookiesGetAll onlineWorld;
     clockISO := clockISO onlineWorld;
     urlHostname := urlHostname onlineWorld;
     dateISO := dateISO onlineWorld |}.

(** The health endpoint answers 503. *)
Definition offlineWorld : World :=
  {| fetchStatus := λ _, Resolved unavailableReply;
     fetchCookies := fetchCookies onlineWorld;
     cookiesGetAll := cookiesGetAll onlineWorld;
     clockISO := clockISO onlineWorld;
     urlHostname := urlHostname onlineWorld;
     dateISO := dateISO onlineWorld |}.

(** The storage endpoint is reached and answers every request with
    status 200 and a body that reports a failure of its own, in words
    that happen to mention a fetch. *)
Definition quotaReply : Response :=
  {| ok := true; status := 200; statusText := "OK";
     json := inr {| success := false;
                    error := Some "Failed to fetch upstream quota" |} |}.

Definition quotaWorld : World :=
  {| fetchStatus := fetchStatus onlineWorld;
     fetchCookies := λ _ _, Resolved quotaReply;
     cookiesGetAll := cookiesGetAll onlineWorld;
     clockISO := clockISO onlineWorld;
     urlHostname := urlHostname onlineWorld;
     dateISO := dateISO onlineWorld |}.

(** ** The content script *)

(** White space in the sense of [String.prototype.trim], among the
    characters below 256: tab to carriage return, space, no-break space. *)
Definition isWhiteSpace (c : ascii) : bool :=
  let n := nat_of_ascii c in
  ((9 <=? n)%nat && (n <=? 13)%nat) || (n =? 32)%nat || (n =? 160)%nat.

Fixpoint trimStart (s : string) : string :=
  match s with
  | "" => ""
  | String c s' => if isWhiteSpace c then trimStart s' else s
  end.

Fixpoint trimEnd (s : string) : string :=
  match s with
  | "" => ""
  | String c s' =>
      match trimEnd s' with
      | "" => if isWhiteSpace c then "" else String c ""
      | t => String c t
      end
  end.

(** [s.trim()]. *)
Definition trim (s : string) : string := trimEnd (trimStart s).

Module DocCookie.
(** An entry of the array [cookies] of [getDocumentCookies]. *)
Record t := mk {
  name : string;
  value : string;
  accessible : bool;
  source : string
}.
End DocCookie.

(** What the content script reads from the page: [document.cookie] (its
    getter may throw), [window.location], the clock, [navigator], whether
    [window !== window.top] (the access may throw), and
    [decodeURIComponent]. *)
Record Page := {
  documentCookie : JsError + string;
  href : string;
  hostname : string;
  protocol : string;
  pageClockISO : string;
  navigatorUserAgent : string;
  navigatorCookieEnabled : bool;
  windowIsNotTop : JsError + bool;
  decodeURIComponent : string → JsError + string
}.

(** The result of [getDocumentCookies]: the data object, or the object
    built in its [catch]. *)
Inductive DocumentCookies :=
| DocumentData (url domain protocol : string) (cookies : list DocCookie.t)
    (timestamp userAgent : string) (cookieEnabled thirdPartyContext : bool)
| DocumentError (error url timestamp : string).

(** [isThirdPartyContext]. *)
Definition isThirdPartyContext (page : Page) : bool :=
  match windowIsNotTop page with
  | inr differs => differs
  | inl _ => true
  end.

(** The callback of [cookiePairs.forEach], with the array [cookies] it
    pushes to; [inl] when [decodeURIComponent] throws. *)
Definition collectPair (page : Page) (cookies : list DocCookie.t)
    (cookiePair : string) : JsError + list DocCookie.t :=
  let parts := split "="%char (trim cookiePair) in
  let name := default "" (parts !! 0%nat) in
  match parts !! 1%nat with
  | Some value =>
      if bool_decide (name ≠ "") then
        match decodeURIComponent page value with
        | inl reason => inl reason
        | inr decoded =>
            inr (cookies ++ [{| DocCookie.name := trim name;
                                DocCookie.value := decoded;
                                DocCookie.accessible := true;
                                DocCookie.source := "document.cookie" |}])
        end
      else inr cookies
  | None => inr cookies
  end.

(** [cookiePairs.forEach(...)]: the first exception ends the loop. *)
Fixpoint collectPairs (page : Page) (cookies : list DocCookie.t)
    (pairs : list string) : JsError + list DocCookie.t :=
  match pairs with
  | [] => inr cookies
  | cookiePair :: rest =>
      match collectPair page cookies cookiePair with
      | inl reason => inl reason
      | inr cookies' => collectPairs page cookies' rest
      end
  end.

Definition getDocumentCookies (page : Page) : DocumentCookies :=
  let attempt :=
    match documentCookie page with
    | inl reason => inl reason
    | inr cookieString =>
        if bool_decide (cookieString ≠ "") then
          collectPairs page [] (split ";"%char cookieString)
        else inr []
    end in
  match attempt with
  | inr cookies =>
      DocumentData (href page) (hostname page) (protocol page) cookies
        (pageClockISO page) (navigatorUserAgent page)
        (navigatorCookieEnabled page) (isThirdPartyContext page)
  | inl reason =>
      DocumentError (errMessage reason) (href page) (pageClockISO page)
  end.

Module Analyzed.
(** An entry of [cookieExtractorUtils.analyzeCookies]; [value] is
    undefined when the pair has no equals sign. *)
Record t := mk { name : string; value : option string }.
End Analyzed.

Module Analysis.
Record t := mk {
  count : nat;
  cookies : list Analyzed.t;
  totalSize : nat;
  domain : string
}.
End Analysis.

(** [window.cookieExtractorUtils.analyzeCookies], given the value of
    [document.cookie]. *)
Definition analyzeCookies (cookieString domain : string) : Analysis.t :=
  let cookies :=
    List.filter (λ c, bool_decide (Analyzed.name c ≠ ""))
      ((λ c, let parts := split "="%char (trim c) in
             {| Analyzed.name := trim (default "" (parts !! 0%nat));
                Analyzed.value := trim <$> parts !! 1%nat |})
         <$> split ";"%char cookieString) in
  {| Analysis.count := length cookies;
     Analysis.cookies := cookies;
     Analysis.totalSize := String.length cookieString;
     Analysis.domain := domain |}.

(** ** The popup: the log panel *)

(** A child node of the log panel: a text node, or an element with the
    markup assigned to its [innerHTML]. Text outside ASCII is held in its
    UTF-8 encoding. *)
Inductive Node :=
| TextNode (text : string)
| ElementNode (innerHTML : string).

Definition isElement (node : Node) : bool :=
  match node with
  | ElementNode _ => true
  | TextNode _ => false
  end.

(** [logOutput.children.length]: only elements count. *)
Definition childrenLength (childNodes : list Node) : nat :=
  length (List.filter isElement childNodes).

(** The [switch] of [log]: icon and style of a message type. *)
Definition logIconStyle (type : string) : string * string :=
  if decide (type = "success") then ("✅", "color: #4CAF50;")
  else if decide (type = "error") then ("❌", "color: #f44336;")
  else if decide (type = "warning") then ("⚠️", "color: #ff9800;")
  else if decide (type = "loading") then
    ("🚀", "color: #FFD700; font-weight: bold; font-size: 16px; text-shadow: 1px 1px 2px rgba(0,0,0,0.5);")
  else ("ℹ️", "color: #ffffff;").

Definition newline : string := String "010"%char "".

(** The template string assigned to [logEntry.innerHTML]. *)
Definition logEntryHTML (timestamp message type : string) : string :=
  newline +:+ "            <span style=" +:+ dquote
    +:+ "opacity: 0.7; font-size: 10px;" +:+ dquote +:+ ">[" +:+ timestamp
    +:+ "]</span> " +:+ newline +:+ "            <span style=" +:+ dquote
    +:+ (logIconStyle type).2 +:+ dquote +:+ ">" +:+ (logIconStyle type).1
    +:+ " " +:+ message +:+ "</span>" +:+ newline +:+ "        ".

(** [log(message, type)] on the child nodes of the panel; [timestamp] is
    [new Date().toLocaleTimeString()]. [firstChild] is the first node of
    any kind. *)
Definition log (timestamp message type : string) (childNodes : list Node)
  : list Node :=
  let childNodes := childNodes ++ [ElementNode (logEntryHTML timestamp message type)] in
  if (50 <? childrenLength childNodes)%nat then drop 1 childNodes
  else childNodes.

(** [clearLogs]: the panel holds one text node. *)
Definition clearLogs : list Node :=
  [TextNode "Logs cleared. Ready to extract cookies..."].

(** A run of calls of [log], each with its time, message and type. *)
Definition logAll (entries : list (string * string * string))
    (childNodes : list Node) : list Node :=
  foldl (λ nodes e, log e.1.1 e.1.2 e.2 nodes) childNodes entries.

(** ** Further notions used in the statements *)

(** Neither the name nor the domain contains the separator of the key. *)
Definition pipeFree (cookie : Cookie.t) : Prop :=
  occurs pipe (Cookie.name cookie) = false
  ∧ occurs pipe (Cookie.domain cookie) = false.

(** The number of processed cookies of a given category, and of a given
    tier. *)
Definition countType (k : string) (cookies : list Processed.t) : nat :=
  length (List.filter (λ p, bool_decide (Processed.cookieType p = k)) cookies).

Definition countLevel (k : string) (cookies : list Processed.t) : nat :=
  length (List.filter (λ p, bool_decide (Processed.securityLevel p = k)) cookies).

(** The count recorded under a key of a histogram, zero when absent. *)
Definition tally (hist : gmap string nat) (k : string) : nat :=
  default 0%nat (hist !! k).

Definition categories : list string :=
  ["secure-httponly"; "httponly"; "secure"; "session"; "regular"].

Definition tiers : list string := ["high"; "medium"; "low"].

(** The key of a processed cookie, as [cookieKey] builds it. *)
Definition processedKey (p : Processed.t) : string :=
  Processed.name p +:+ "|" +:+ Processed.domain p +:+ "|" +:+ Processed.path p.

Definition allPrefix : string := "Failed to extract all cookies: ".
Definition domainPrefix : string := "Failed to extract domain cookies: ".

(** The time values a [Date] can hold: at most 8.64e15 milliseconds on
    either side of the epoch.  [new Date(x * 1000).toISOString()] returns
    for these, and throws a RangeError for any other. *)
Definition maxTime : Q := 8640000000000000 # 1.

Definition convertible (x : Q) : bool :=
  Qle_bool (- maxTime) (x * 1000)%Q && Qle_bool (x * 1000)%Q maxTime.

(** The conversion of line 141 does not throw on this cookie: the
    expiration date is falsy, and not converted, or it is in range. *)
Definition validExpiration (cookie : Cookie.t) : bool :=
  match Cookie.expirationDate cookie with
  | Some x => negb (js_truthy_num (Some x)) || convertible x
  | None => true
  end.

(** A cookie dated beyond the last day a [Date] can hold. *)
Definition endlessCookie : Cookie.t :=
  Cookie.mk "keep" "1" "x.com" "/" false false "Lax" false
            (Some (9000000000000 # 1)%Q) true "0".

(** The URL parser refuses a string without a scheme, as [new URL(url)]
    does when no base is given. *)
Definition schemeWorld : World :=
  {| fetchStatus := fetchStatus onlineWorld;
     fetchCookies := fetchCookies onlineWorld;
     cookiesGetAll := cookiesGetAll onlineWorld;
     clockISO := clockISO onlineWorld;
     urlHostname := λ url,
       if occurs ":" url then urlHostname onlineWorld url
       else inl {| errName := "TypeError"; errMessage := "Invalid URL" |};
     dateISO := dateISO onlineWorld |}.

(** The cookie store refuses to be read. *)
Definition lockedStoreWorld : World :=
  {| fetchStatus := fetchStatus onlineWorld;
     fetchCookies := fetchCookies onlineWorld;
     cookiesGetAll := λ _ _,
       inl {| errName := "Error"; errMessage := "No cookie permission" |};
     clockISO := clockISO onlineWorld;
     urlHostname := urlHostname onlineWorld;
     dateISO := dateISO onlineWorld |}.

(** No character of [s] satisfies [bad]. *)
Fixpoint noneOf (bad : ascii → bool) (s : string) : bool :=
  match s with
  | "" => true
  | String c s' => negb (bad c) && noneOf bad s'
  end.

(** A cookie name as a page serialises it: not empty, without semicolon,
    equals sign and white space. *)
Definition cleanName (s : string) : Prop :=
  s ≠ ""
  ∧ noneOf (λ c, bool_decide (c = ";"%char) || bool_decide (c = "="%char)
                 || isWhiteSpace c) s = true.

(** A cookie value: without semicolon and white space. *)
Definition cleanValue (s : string) : Prop :=
  noneOf (λ c, bool_decide (c = ";"%char) || isWhiteSpace c) s = true.

Definition cleanEntry (e : string * string) : Prop :=
  cleanName e.1 ∧ cleanValue e.2.

(** The text of a value before its first equals sign. *)
Definition beforeEquals (v : string) : string :=
  default "" (split "="%char v !! 0%nat).

(** [document.cookie] for a list of names and values. *)
Definition serialise (entries : list (string * string)) : string :=
  join "; " ((λ e, e.1 +:+ "=" +:+ e.2) <$> entries).

(** A page whose [decodeURIComponent] rejects a lone percent sign. *)
Definition shopPage (cookieString : string) : Page :=
  {| documentCookie := inr cookieString;
     href := "https://shop.example/cart";
     hostname := "shop.example";
     protocol := "https:";
     pageClockISO := "2024-05-01T10:00:00.000Z";
     navigatorUserAgent := "Mozilla/5.0";
     navigatorCookieEnabled := true;
     windowIsNotTop := inr false;
     decodeURIComponent := λ v,
       if occurs "%" v
       then inl {| errName := "URIError"; errMessage := "URI malformed" |}
       else inr v |}.

(** What the collector is expected to push for serialised entries: name
    and decoded value, the value cut at its first equals sign. *)
Fixpoint collectEntries (page : Page) (cookies : list DocCookie.t)
    (entries : list (string * string)) : JsError + list DocCookie.t :=
  match entries with
  | [] => inr cookies
  | e :: rest =>
      match decodeURIComponent page (beforeEquals e.2) with
      | inl reason => inl reason
      | inr decoded =>
          collectEntries page
            (cookies ++ [DocCookie.mk e.1 decoded true "document.cookie"]) rest
      end
  end.

(** The name and the value that both readers of [document.cookie] take
    from one segment of the cookie string. *)
Definition pairName (segment : string) : string :=
  default "" (split "="%char (trim segment) !! 0%nat).

Definition pairValue (segment : string) : option string :=
  split "="%char (trim segment) !! 1%nat.

(** The collector keeps the segment: the name is not empty and there is
    an equals sign. *)
Definition accepted (segment : string) : bool :=
  bool_decide (pairName segment ≠ "")
  && match pairValue segment with Some _ => true | None => false end.

(** The state of the panel after [clearLogs] and [k] calls of [log]. *)
Definition afterClear (k : nat) (nodes : list Node) : Prop :=
  (k ≤ 50 ∧ ∃ es, nodes = clearLogs ++ es
                  ∧ Forall (λ node, isElement node = true) es
                  ∧ length es = k)%nat
  ∨ (51 ≤ k ∧ Forall (λ node, isElement node = true) nodes
     ∧ length nodes = 51)%nat.

(** * Properties *)

(** ** Classification *)

Section Classification.
Implicit Types cookie : Cookie.t.

Lemma securityScore_sum cookie :
  securityScore cookie =
    points (Cookie.secure cookie) 2
    + points (Cookie.httpOnly cookie) 2
    + points (bool_decide (Cookie.sameSite cookie = "Strict")) 2
    + points (bool_decide (Cookie.sameSite cookie = "Lax")) 1
    + points (negb (Cookie.session cookie)
              && js_truthy_num (Cookie.expirationDate cookie)) 1.
Proof. unfold securityScore, points. repeat case_match; lia. Qed.

Lemma sameSite_exclusive cookie :
  points (bool_decide (Cookie.sameSite cookie = "Strict")) 2
  + points (bool_decide (Cookie.sameSite cookie = "Lax")) 1 ≤ 2.
Proof.
  unfold points.
  destruct (bool_decide_reflect (Cookie.sameSite cookie = "Strict")) as [Hs|_];
    destruct (bool_decide_reflect (Cookie.sameSite cookie = "Lax")) as [Hl|_];
    [rewrite Hs in Hl; discriminate|lia..].
Qed.

(** Strict and Lax exclude each other, so the score never exceeds 7. *)
Lemma securityScore_range cookie : 0 ≤ securityScore cookie ≤ 7.
Proof.
  pose proof (sameSite_exclusive cookie) as Hx. revert Hx.
  rewrite securityScore_sum. unfold points. repeat case_match; lia.
Qed.

Lemma assessSecurityLevel_cases cookie :
  (6 ≤ securityScore cookie ∧ assessSecurityLevel cookie = "high")
  ∨ (3 ≤ securityScore cookie < 6 ∧ assessSecurityLevel cookie = "medium")
  ∨ (securityScore cookie < 3 ∧ assessSecurityLevel cookie = "low").
Proof.
  unfold assessSecurityLevel. cbv zeta.
  destruct (Z.leb_spec 6 (securityScore cookie));
    destruct (Z.leb_spec 3 (securityScore cookie)); auto with lia.
Qed.

(** C2: the score is the sum of the five signals (+2 secure, +2 httpOnly,
    +2 sameSite Strict, +1 sameSite Lax, +1 not a session cookie and an
    expiration date that JavaScript takes as true), it lies in [0, 8], and
    the tier is "high" exactly when the score is at least 6, "medium"
    exactly when it is in [3, 6), and "low" exactly when it is below 3. *)
Theorem assessSecurityLevel_score cookie :
  securityScore cookie =
    points (Cookie.secure cookie) 2
    + points (Cookie.httpOnly cookie) 2
    + points (bool_decide (Cookie.sameSite cookie = "Strict")) 2
    + points (bool_decide (Cookie.sameSite cookie = "Lax")) 1
    + points (negb (Cookie.session cookie)
              && js_truthy_num (Cookie.expirationDate cookie)) 1
  ∧ 0 ≤ securityScore cookie ≤ 8
  ∧ (assessSecurityLevel cookie = "high" ↔ 6 ≤ securityScore cookie)
  ∧ (assessSecurityLevel cookie = "medium" ↔ 3 ≤ securityScore cookie < 6)
  ∧ (assessSecurityLevel cookie = "low" ↔ securityScore cookie < 3).
Proof.
  split; [apply securityScore_sum|].
  split; [pose proof (securityScore_range cookie); lia|].
  destruct (assessSecurityLevel_cases cookie) as [[? ->]|[[? ->]|[? ->]]];
    repeat split; intros; first [done | lia].
Qed.

(** C3: the category is the first rule that matches, in the order
    secure-httponly, httponly, secure, session, regular; a cookie that is
    both httpOnly and secure is "secure-httponly", and neither "secure"
    nor "httponly". *)
Theorem categorizeCookie_priority cookie :
  categorizeCookie cookie =
    match Cookie.httpOnly cookie, Cookie.secure cookie, Cookie.session cookie with
    | true, true, _ => "secure-httponly"
    | true, false, _ => "httponly"
    | false, true, _ => "secure"
    | false, false, true => "session"
    | false, false, false => "regular"
    end
  ∧ (Cookie.httpOnly cookie && Cookie.secure cookie = true ↔
     categorizeCookie cookie = "secure-httponly")
  ∧ (Cookie.httpOnly cookie && Cookie.secure cookie = true ↔
     categorizeCookie cookie ≠ "httponly" ∧ categorizeCookie cookie ≠ "secure"
     ∧ categorizeCookie cookie ≠ "session" ∧ categorizeCookie cookie ≠ "regular").
Proof.
  unfold categorizeCookie.
  destruct (Cookie.httpOnly cookie), (Cookie.secure cookie),
    (Cookie.session cookie); simpl; intuition congruence.
Qed.

(** C10: a score of at least 6 needs both the secure and the httpOnly
    points; so a cookie of tier "high" has both flags and its category is
    "secure-httponly". *)
Theorem high_tier_is_secure_httponly cookie :
  (6 ≤ securityScore cookie →
   Cookie.secure cookie = true ∧ Cookie.httpOnly cookie = true)
  ∧ (assessSecurityLevel cookie = "high" →
     Cookie.secure cookie = true ∧ Cookie.httpOnly cookie = true
     ∧ categorizeCookie cookie = "secure-httponly").
Proof.
  assert (6 ≤ securityScore cookie →
          Cookie.secure cookie = true ∧ Cookie.httpOnly cookie = true) as Hboth.
  { pose proof (sameSite_exclusive cookie) as Hx. revert Hx.
    rewrite securityScore_sum. unfold points.
    destruct (Cookie.secure cookie), (Cookie.httpOnly cookie);
      repeat case_match; intros; first [done | lia]. }
  split; [exact Hboth|]. intros Hhigh.
  assert (6 ≤ securityScore cookie) as Hscore.
  { destruct (assessSecurityLevel_cases cookie) as [[? _]|[[_ E]|[_ E]]];
      [done|rewrite E in Hhigh; discriminate..]. }
  destruct (Hboth Hscore) as [Hs Hh].
  unfold categorizeCookie. by rewrite Hs, Hh.
Qed.

Lemma high_tier_is_secure_httponly_witness :
  assessSecurityLevel bankSession = "high"
  ∧ Cookie.secure bankSession = true ∧ Cookie.httpOnly bankSession = true
  ∧ categorizeCookie bankSession = "secure-httponly".
Proof.
  assert (assessSecurityLevel bankSession = "high") as H by reflexivity.
  split; [exact H|].
  exact (proj2 (high_tier_is_secure_httponly bankSession) H).
Defined.

(** A cookie that is secure and httpOnly and nothing else scores 4. *)
Example secure_httponly_scores_medium :
  let cookie :=
    Cookie.mk "a" "" "x.com" "/" true true "unspecified" false None true "0" in
  categorizeCookie cookie = "secure-httponly"
  ∧ securityScore cookie = 4 ∧ assessSecurityLevel cookie = "medium".
Proof. repeat split. Qed.

Example session_cookie_scores_low :
  let cookie :=
    Cookie.mk "b" "" "x.com" "/" false false "unspecified" true None true "0" in
  categorizeCookie cookie = "session"
  ∧ securityScore cookie = 0 ∧ assessSecurityLevel cookie = "low".
Proof. repeat split. Qed.
End Classification.

(** ** Deduplication *)

Section Deduplication.
Implicit Types (cookie c : Cookie.t) (cookies l : list Cookie.t).
Implicit Types seen : gset string.

Lemma filterUnseen_fresh seen l c :
  c ∈ filterUnseen seen l → cookieKey c ∉ seen.
Proof.
  revert seen. induction l as [|c' l IH]; intros seen; simpl.
  - by intros ?%elem_of_nil.
  - destruct (decide (cookieKey c' ∈ seen)) as [Hin|Hout].
    + apply IH.
    + intros [->|Hc]%elem_of_cons; [done|].
      apply IH in Hc. set_solver.
Qed.

Lemma filterUnseen_sublist seen l : filterUnseen seen l `sublist_of` l.
Proof.
  revert seen. induction l as [|c l IH]; intros seen; simpl; [done|].
  case_decide; [apply sublist_cons|apply sublist_skip]; apply IH.
Qed.

Lemma filterUnseen_NoDup seen l : NoDup (cookieKey <$> filterUnseen seen l).
Proof.
  revert seen. induction l as [|c l IH]; intros seen; simpl.
  - constructor.
  - case_decide; [apply IH|].
    rewrite fmap_cons. constructor; [|apply IH].
    intros (c' & Hkey & Hc')%list_elem_of_fmap.
    apply filterUnseen_fresh in Hc'. set_solver.
Qed.

Lemma filterUnseen_id seen l :
  NoDup (cookieKey <$> l) → (∀ c, c ∈ l → cookieKey c ∉ seen) →
  filterUnseen seen l = l.
Proof.
  revert seen. induction l as [|c l IH]; intros seen Hnd Hfresh; simpl; [done|].
  rewrite fmap_cons in Hnd. apply NoDup_cons in Hnd as [Hc Hnd].
  rewrite decide_False by (apply Hfresh; left).
  f_equal. apply IH; [done|].
  intros c' Hc'. apply not_elem_of_union. split.
  - intros Heq%elem_of_singleton. apply Hc. rewrite <- Heq.
    by apply list_elem_of_fmap_2.
  - apply Hfresh. by right.
Qed.

(** The set [seen] after the callback has run over [l]. *)
Lemma filterUnseen_app seen l1 l2 :
  filterUnseen seen (l1 ++ l2) =
    filterUnseen seen l1
    ++ filterUnseen (list_to_set (cookieKey <$> l1) ∪ seen) l2.
Proof.
  revert seen. induction l1 as [|c l1 IH]; intros seen.
  - simpl. by rewrite (left_id_L ∅ (∪)).
  - rewrite fmap_cons, list_to_set_cons. simpl.
    destruct (decide (cookieKey c ∈ seen)) as [Hin|Hout]; rewrite IH.
    + do 2 f_equal.
      rewrite (comm_L (∪) {[_]} (list_to_set _)), <- (assoc_L (∪)).
      f_equal. symmetry. apply subseteq_union_1_L.
      by apply singleton_subseteq_l.
    + simpl. do 3 f_equal.
      by rewrite (comm_L (∪) {[_]} (list_to_set _)), <- (assoc_L (∪)).
Qed.

(** A cookie appended to the list is kept exactly when no cookie before
    it has the same key string. *)
Lemma removeDuplicateCookies_snoc l c :
  removeDuplicateCookies (l ++ [c]) =
    removeDuplicateCookies l
    ++ (if decide (cookieKey c ∈ cookieKey <$> l) then [] else [c]).
Proof.
  unfold removeDuplicateCookies. rewrite filterUnseen_app. f_equal. simpl.
  rewrite (right_id_L ∅ (∪)).
  destruct (decide (cookieKey c ∈ cookieKey <$> l)) as [Hin|Hout].
  - rewrite decide_True; [done|]. by apply elem_of_list_to_set.
  - rewrite decide_False; [done|]. by rewrite elem_of_list_to_set.
Qed.

(** C9: deduplicating an already deduplicated list changes nothing. *)
Theorem removeDuplicateCookies_idempotent cookies :
  removeDuplicateCookies (removeDuplicateCookies cookies) =
    removeDuplicateCookies cookies.
Proof.
  unfold removeDuplicateCookies at 1.
  apply filterUnseen_id; [apply filterUnseen_NoDup|].
  intros c _. apply not_elem_of_empty.
Qed.

(** C1, at the failing input: the two cookies differ in name and in path,
    yet the second is dropped as a duplicate of the first. *)
Theorem removeDuplicateCookies_key_collision :
  cookieTriple pipeInName ≠ cookieTriple pipeInPath
  ∧ cookieKey pipeInName = cookieKey pipeInPath
  ∧ removeDuplicateCookies [pipeInName; pipeInPath] = [pipeInName].
Proof. split; [discriminate|]. split; vm_compute; reflexivity. Qed.
End Deduplication.

(** ** Summary *)

Section SummaryProperties.
Implicit Types (cookies : list Processed.t) (xs : list string).

Lemma foldl_Set_add_NoDup acc xs : NoDup acc → NoDup (foldl Set_add acc xs).
Proof.
  revert acc. induction xs as [|x xs IH]; intros acc Hacc; simpl; [done|].
  apply IH. unfold Set_add. case_decide; [done|].
  apply NoDup_app. repeat split; [done| |apply NoDup_singleton].
  by intros y Hy ->%list_elem_of_singleton.
Qed.

Lemma foldl_Set_add_elem acc xs x :
  x ∈ foldl Set_add acc xs ↔ x ∈ acc ∨ x ∈ xs.
Proof.
  revert acc. induction xs as [|y xs IH]; intros acc; simpl.
  - rewrite elem_of_nil. tauto.
  - rewrite IH, elem_of_cons. unfold Set_add. case_decide.
    + intuition (subst; auto).
    + rewrite elem_of_app, list_elem_of_singleton. tauto.
Qed.

Lemma Set_spread_NoDup xs : NoDup (Set_spread xs).
Proof. apply foldl_Set_add_NoDup. constructor. Qed.

Lemma Set_spread_elem xs x : x ∈ Set_spread xs ↔ x ∈ xs.
Proof.
  unfold Set_spread. rewrite foldl_Set_add_elem, elem_of_nil. tauto.
Qed.

Lemma Array_sort_Permutation xs : Array_sort xs ≡ₚ xs.
Proof. apply merge_sort_Permutation. Qed.

Lemma Array_sort_Sorted xs : StronglySorted String.le (Array_sort xs).
Proof. apply (StronglySorted_merge_sort String.le). Qed.

(** [String.le] is the order of the dictionary over character codes. *)
Lemma String_le_lexicographic (a b : ascii) (s t : string) :
  String.le "" s
  ∧ ¬ String.le (String a s) ""
  ∧ (String.le (String a s) (String b t) ↔
     (N_of_ascii a < N_of_ascii b)%N ∨ (a = b ∧ String.le s t)).
Proof.
  unfold String.le, String.leb. split; [by destruct s|]. split; [simpl; tauto|].
  simpl. unfold Ascii.compare.
  destruct (N.compare_spec (N_of_ascii a) (N_of_ascii b)) as [Heq|Hlt|Hgt].
  - assert (a = b) as -> by (rewrite <- (ascii_N_embedding a),
      <- (ascii_N_embedding b); congruence).
    split; [auto|]. intros [?|[_ ?]]; [lia|done].
  - split; [auto|done].
  - split; [done|]. intros [?|[-> _]]; lia.
Qed.

(** Two duplicate-free sorted lists with the same elements are equal. *)
Lemma sorted_domains_unique xs ys :
  NoDup xs → NoDup ys → (∀ x, x ∈ xs ↔ x ∈ ys) →
  Array_sort xs = Array_sort ys.
Proof.
  intros Hx Hy Hxy.
  apply (Sorted_unique String.le).
  - apply StronglySorted_Sorted, Array_sort_Sorted.
  - apply StronglySorted_Sorted, Array_sort_Sorted.
  - rewrite !Array_sort_Permutation. by apply NoDup_Permutation.
Qed.

(** C8: the [domains] field is sorted in dictionary order, has no
    duplicates, holds exactly the domain values of the input cookies, and
    [uniqueDomains] is its length; two inputs with the same domain values,
    in whatever order and multiplicity, give the same field. *)
Theorem generateSummary_domains cookies :
  let s := generateSummary cookies in
  StronglySorted String.le (Summary.domains s)
  ∧ NoDup (Summary.domains s)
  ∧ (∀ d, d ∈ Summary.domains s ↔ d ∈ Processed.domain <$> cookies)
  ∧ Summary.uniqueDomains s = length (Summary.domains s)
  ∧ (∀ cookies',
       (∀ d, d ∈ Processed.domain <$> cookies' ↔ d ∈ Processed.domain <$> cookies) →
       Summary.domains (generateSummary cookies') = Summary.domains s).
Proof.
  simpl. split; [apply Array_sort_Sorted|].
  split; [rewrite Array_sort_Permutation; apply Set_spread_NoDup|].
  split; [intros d; by rewrite Array_sort_Permutation, Set_spread_elem|].
  split; [by rewrite Array_sort_Permutation|].
  intros cookies' Hsame.
  apply sorted_domains_unique; [apply Set_spread_NoDup..|].
  intros d. by rewrite !Set_spread_elem.
Qed.

Lemma foldl_size_sum cookies (acc : nat) :
  foldl (λ sum c, (sum + Processed.size c)%nat) acc cookies =
    (acc + sum_list (Processed.size <$> cookies))%nat.
Proof.
  revert acc. induction cookies as [|c cookies IH]; intros acc; csimpl.
  - lia.
  - rewrite IH. lia.
Qed.

Lemma js_div_zero_zero : js_div 0 0 = JNaN.
Proof. reflexivity. Qed.

Lemma Math_round_js_div (s : Z) (n : positive) :
  Math_round (js_div (inject_Z s) (inject_Z (Z.pos n))) =
    JNum (inject_Z ((2 * s + Z.pos n) `div` (2 * Z.pos n))).
Proof.
  unfold js_div. replace (Qeq_bool (inject_Z (Z.pos n)) 0) with false by done.
  unfold Math_round, Qfloor, Qplus, Qdiv, Qmult, Qinv, inject_Z. simpl.
  do 2 f_equal. f_equal; lia.
Qed.

(** C7: for a non-empty list, [averageCookieSize] is the integer nearest
    to the sum of the sizes divided by their number (a half goes up); for
    the empty list the quotient of zero by zero, not a number, comes
    out. *)
Theorem generateSummary_average cookies :
  let total := Z.of_nat (sum_list (Processed.size <$> cookies)) in
  let n := Z.of_nat (length cookies) in
  match cookies with
  | [] =>
      total = 0 ∧ n = 0
      ∧ Summary.averageCookieSize (generateSummary cookies) = Math_round (js_div 0 0)
      ∧ Summary.averageCookieSize (generateSummary cookies) = JNaN
  | _ :: _ =>
      ∃ r : Z,
        Summary.averageCookieSize (generateSummary cookies) = JNum (inject_Z r)
        ∧ - n < 2 * (n * r - total) ≤ n
  end.
Proof.
  destruct cookies as [|c cookies]; [done|].
  intros total n. unfold generateSummary. cbn [Summary.averageCookieSize].
  rewrite foldl_size_sum, Nat.add_0_l. fold total.
  assert (∃ p, n = Z.pos p) as [p Hp].
  { exists (Pos.of_succ_nat (length cookies)). unfold n. simpl. lia. }
  fold n. rewrite Hp, Math_round_js_div.
  eexists. split; [done|].
  pose proof (Z.div_mod (2 * total + Z.pos p) (2 * Z.pos p)) as Hdm.
  pose proof (Z.mod_pos_bound (2 * total + Z.pos p) (2 * Z.pos p)) as Hmod.
  lia.
Qed.
End SummaryProperties.

(** ** Strings: separators and labels *)

Section Separators.
Implicit Types (s t : string) (c sep : ascii).

Lemma append_nil s : "" +:+ s = s.
Proof. reflexivity. Qed.

Lemma append_cons c s t : String c s +:+ t = String c (s +:+ t).
Proof. reflexivity. Qed.

Lemma split_nonempty sep s : ∃ w ws, split sep s = w :: ws.
Proof.
  destruct s as [|c s]; simpl; [by eauto|].
  case_decide; [by eauto|]. destruct (split sep s); eauto.
Qed.

Lemma join_cons_cons (glue w w' : string) (ws : list string) :
  join glue (w :: w' :: ws) = w +:+ glue +:+ join glue (w' :: ws).
Proof. reflexivity. Qed.




(** A string is cut in one way only at the first occurrence of [sep]. *)
Lemma cut_at_separator_inj sep s1 s2 t1 t2 :
  occurs sep s1 = false → occurs sep s2 = false →
  s1 +:+ String sep t1 = s2 +:+ String sep t2 → s1 = s2 ∧ t1 = t2.
Proof.
  revert s2. induction s1 as [|c1 s1 IH]; intros [|c2 s2]; simpl;
    rewrite ?append_nil, ?append_cons.
  - by intros _ _ [= ->].
  - intros _ [Hc _]%orb_false_elim [= <- _]. by rewrite bool_decide_eq_true_2 in Hc.
  - intros [Hc _]%orb_false_elim _ [= -> _]. by rewrite bool_decide_eq_true_2 in Hc.
  - intros [_ H1]%orb_false_elim [_ H2]%orb_false_elim [= -> Heq].
    destruct (IH _ H1 H2 Heq) as [-> ->]. done.
Qed.

(** The key string determines name, domain and path as long as neither a
    name nor a domain contains the separator. *)
Lemma cookieKey_inj (c1 c2 : Cookie.t) :
  occurs pipe (Cookie.name c1) = false → occurs pipe (Cookie.name c2) = false →
  occurs pipe (Cookie.domain c1) = false → occurs pipe (Cookie.domain c2) = false →
  cookieKey c1 = cookieKey c2 →
  Cookie.name c1 = Cookie.name c2 ∧ Cookie.domain c1 = Cookie.domain c2
  ∧ Cookie.path c1 = Cookie.path c2.
Proof.
  unfold cookieKey. intros Hn1 Hn2 Hd1 Hd2 Hkey.
  rewrite !append_cons, !append_nil in Hkey.
  apply cut_at_separator_inj in Hkey as [Hn Hkey]; [|done..].
  apply cut_at_separator_inj in Hkey as [Hd Hp]; done.
Qed.
(** With no separator inside names and domains, a cookie appended to the
    list is kept exactly when no cookie before it has the same name,
    domain and path. *)
Lemma removeDuplicateCookies_snoc_triple (l : list Cookie.t) (c : Cookie.t) :
  Forall (λ k : Cookie.t, occurs pipe (Cookie.name k) = false
                ∧ occurs pipe (Cookie.domain k) = false) (c :: l) →
  removeDuplicateCookies (l ++ [c]) =
    removeDuplicateCookies l
    ++ (if decide (cookieTriple c ∈ cookieTriple <$> l) then [] else [c]).
Proof.
  intros [[Hn Hd] Hl]%Forall_cons. rewrite removeDuplicateCookies_snoc.
  f_equal. rewrite Forall_forall in Hl.
  destruct (decide (cookieKey c ∈ cookieKey <$> l)) as [Hin|Hout].
  - apply list_elem_of_fmap in Hin as (k & Hkey & Hk).
    destruct (Hl k Hk) as [Hn' Hd'].
    destruct (cookieKey_inj c k Hn Hn' Hd Hd' Hkey) as (En & Ed & Ep).
    rewrite decide_True; [done|].
    apply list_elem_of_fmap. exists k. split; [|done].
    unfold cookieTriple. by rewrite En, Ed, Ep.
  - rewrite decide_False; [done|].
    intros (k & Htriple & Hk)%list_elem_of_fmap. apply Hout.
    apply list_elem_of_fmap. exists k. split; [|done].
    unfold cookieTriple in Htriple. injection Htriple as En Ed Ep.
    unfold cookieKey. by rewrite En, Ed, Ep.
Qed.
End Separators.

(** ** Delivery *)

Lemma run_ret {A} (x : A) (w : World) (h : list Event) :
  (mret x : M A) w h = (inr x, h).
Proof. reflexivity. Qed.

Ltac run_M :=
  unfold ask, history, emit, sleep, throw, settle, await, now_ISO;
  unfold mbind, M_bind, mret, M_ret; simpl.

Section Delivery.
Implicit Types (w : World) (h : list Event) (o : FetchOutcome).

Lemma run_bind {A B} (m : M A) (f : A → M B) w h :
  (m ≫= f) w h =
    match m w h with
    | (inl e, h') => (inl e, h')
    | (inr x, h') => f x w h'
    end.
Proof. reflexivity. Qed.

Lemma fetch_cookies_run body w h :
  fetch_cookies body w h =
    (match fetchCookies w h body with
     | Resolved response => inr response
     | Rejected reason => inl reason
     end, h ++ [EvPost body]).
Proof.
  unfold fetch_cookies. run_M. by destruct (fetchCookies w h body).
Qed.

(** One attempt is one POST; it throws what [attemptError] says. *)
Lemma postAttempt_run body w h :
  postAttempt body w h =
    (match attemptError (fetchCookies w h body) with
     | None => inr ()
     | Some e => inl e
     end, h ++ [EvPost body]).
Proof.
  unfold postAttempt. rewrite run_bind, fetch_cookies_run.
  unfold attemptError.
  destruct (fetchCookies w h body) as [response|reason]; [|done].
  destruct (ok response); simpl; [|done].
  rewrite run_bind.
  destruct (json response) as [reason|result]; simpl; [done|].
  by destruct (success result).
Qed.

(** An attempt succeeds exactly on a response with a success status whose
    body parses and carries a true success flag. *)
Lemma attemptError_None o :
  attemptError o = None ↔
  ∃ response result,
    o = Resolved response ∧ ok response = true
    ∧ json response = inr result ∧ success result = true.
Proof.
  split.
  - destruct o as [response|reason]; simpl; [|done].
    destruct (ok response) eqn:Hok; simpl; [|done].
    destruct (json response) as [reason|result] eqn:Hjson; [done|].
    destruct (success result) eqn:Hs; simpl; [|done].
    intros _. by exists response, result.
  - intros (response & result & -> & Hok & Hjson & Hs). simpl.
    by rewrite Hok, Hjson, Hs.
Qed.

(** One iteration of the retry loop. *)
Lemma retryLoop_iteration body attempt remaining w h :
  retryLoop body attempt (S remaining) w h =
    match attemptError (fetchCookies w h body) with
    | None => (inr (), h ++ [EvPost body])
    | Some caught =>
        if decide (attempt = maxRetries)
        then (inl (finalError caught), h ++ [EvPost body])
        else if decide (attempt < maxRetries)%nat
             then retryLoop body (S attempt) remaining w
                    (h ++ [EvPost body; EvSleep retryDelay])
             else retryLoop body (S attempt) remaining w (h ++ [EvPost body])
    end.
Proof.
  cbn [retryLoop]. rewrite run_bind. unfold try_catch at 1.
  rewrite run_bind, postAttempt_run.
  destruct (attemptError (fetchCookies w h body)) as [caught|]; [|done].
  rewrite !run_bind.
  destruct (decide (attempt = maxRetries)); [done|].
  destruct (decide (attempt < maxRetries)%nat); simpl; [|done].
  by rewrite <- (assoc_L (++)).
Qed.

Lemma finalError_cases (caught : JsError) :
  (errName caught = "AbortError" ∧ finalError caught = Error serverTimeout)
  ∨ (errName caught ≠ "AbortError"
     ∧ includes (errMessage caught) "Failed to fetch"
       || includes (errMessage caught) "NetworkError" = true
     ∧ finalError caught = Error cannotConnect)
  ∨ (errName caught ≠ "AbortError"
     ∧ includes (errMessage caught) "Failed to fetch" = false
     ∧ includes (errMessage caught) "NetworkError" = false
     ∧ finalError caught = Error ("Server error: " +:+ errMessage caught)).
Proof.
  unfold finalError. case_decide; [by left|right].
  destruct (includes (errMessage caught) "Failed to fetch");
    destruct (includes (errMessage caught) "NetworkError"); simpl; auto.
Qed.

(** The run of [saveCookiesToFile], attempt by attempt. *)
Lemma saveCookiesToFile_run cookies prefix w h :
  let body := makeCookieData cookies prefix (clockISO w h) (clockISO w h) in
  let post := EvPost body in
  let pause := EvSleep 1000 in
  saveCookiesToFile cookies prefix w h =
    match attemptError (fetchCookies w h body) with
    | None => (inr (), h ++ [post])
    | Some _ =>
        match attemptError (fetchCookies w (h ++ [post; pause]) body) with
        | None => (inr (), h ++ [post; pause; post])
        | Some _ =>
            match attemptError
                    (fetchCookies w (h ++ [post; pause; post; pause]) body) with
            | None => (inr (), h ++ [post; pause; post; pause; post])
            | Some caught =>
                (inl (finalError caught), h ++ [post; pause; post; pause; post])
            end
        end
    end.
Proof.
  intros body post pause.
  change (saveCookiesToFile cookies prefix w h) with (retryLoop body 1 3 w h).
  rewrite retryLoop_iteration. change (EvSleep retryDelay) with pause.
  fold post.
  destruct (attemptError (fetchCookies w h body)); [|done].
  rewrite decide_False by done. rewrite decide_True by (unfold maxRetries; lia).
  rewrite retryLoop_iteration, <- !(assoc_L (++)). cbn [app].
  change (EvSleep retryDelay) with pause. fold post.
  destruct (attemptError (fetchCookies w (h ++ [post; pause]) body)); [|done].
  rewrite decide_False by done. rewrite decide_True by (unfold maxRetries; lia).
  rewrite retryLoop_iteration, <- !(assoc_L (++)). cbn [app]. fold post.
  destruct (attemptError (fetchCookies w (h ++ [post; pause; post; pause]) body));
    [|done].
  by rewrite decide_True.
Qed.

(** [s.includes(t)] holds exactly when [t] occurs in [s] as a block of
    consecutive characters. *)
Lemma prefix_spec (t s : string) :
  String.prefix t s = true ↔ ∃ post, s = t +:+ post.
Proof.
  revert s. induction t as [|a t IH]; intros s.
  - destruct s; (split; [intros _; by eexists|done]).
  - destruct s as [|b s]; simpl.
    + split; [done|]. by intros [post Hpost].
    + destruct (ascii_dec a b) as [->|Hab].
      * rewrite IH. split; intros [post Hpost]; exists post.
        -- by rewrite Hpost.
        -- by injection Hpost.
      * split; [done|]. intros [post Hpost]. by injection Hpost.
Qed.

Lemma includes_spec (s t : string) :
  includes s t = true ↔ ∃ pre post, s = pre +:+ t +:+ post.
Proof.
  induction s as [|a s IH].
  - cbn [includes]. rewrite orb_false_r, prefix_spec. split.
    + intros [post Hpost]. by exists "", post.
    + intros [pre [post Hpost]]. destruct pre; [by exists post|done].
  - cbn [includes]. rewrite orb_true_iff, prefix_spec, IH. split.
    + intros [[post Hpost]|[pre [post Hpost]]].
      * by exists "", post.
      * exists (String a pre), post. by rewrite Hpost.
    + intros [pre [post Hpost]]. destruct pre as [|b pre].
      * left. by exists post.
      * right. exists pre, post. by injection Hpost.
Qed.

Lemma includes_false_spec (s t : string) :
  includes s t = false ↔ ∀ pre post, s ≠ pre +:+ t +:+ post.
Proof.
  rewrite <- not_true_iff_false, includes_spec. split.
  - intros Hnone pre post Hs. apply Hnone. by exists pre, post.
  - intros Hnone [pre [post Hs]]. by apply (Hnone pre post).
Qed.

(** The error caught when the endpoint answers with an HTTP success and a
    body whose success flag is false: its message carries the text of the
    reply, so the choice of the final message depends on that text. *)
Lemma attemptError_reply_text response result text :
  ok response = true →
  json response = inr result →
  success result = false →
  error result = Some text →
  text ≠ "" →
  attemptError (Resolved response) = Some (Error ("Server error: " +:+ text)).
Proof.
  intros Hok Hjson Hsuccess Herror Htext. unfold attemptError.
  rewrite Hok, Hjson, Hsuccess, Herror. simpl.
  by destruct text.
Qed.

(** C5, as amended: [saveCookiesToFile] posts the same envelope up to three
    times, sleeps 1000 ms between two consecutive attempts and not after
    the last, returns at the first attempt that succeeds, and after a third
    failure throws exactly one of three errors, chosen from the name and
    the message of the error caught last: the timeout message when the
    name is AbortError; otherwise the connection message when the message
    contains the text [Failed to fetch] or the text [NetworkError]
    anywhere; otherwise the generic server error followed by the caught
    message.  The test reads the message only, so the connection message
    is also raised when the endpoint was reached and that text came from
    its own reply. *)
Theorem saveCookiesToFile_retry cookies prefix w h :
  let body := makeCookieData cookies prefix (clockISO w h) (clockISO w h) in
  let post := EvPost body in
  let pause := EvSleep 1000 in
  saveCookiesToFile cookies prefix w h =
    match attemptError (fetchCookies w h body) with
    | None => (inr (), h ++ [post])
    | Some _ =>
        match attemptError (fetchCookies w (h ++ [post; pause]) body) with
        | None => (inr (), h ++ [post; pause; post])
        | Some _ =>
            match attemptError
                    (fetchCookies w (h ++ [post; pause; post; pause]) body) with
            | None => (inr (), h ++ [post; pause; post; pause; post])
            | Some caught =>
                (inl (finalError caught), h ++ [post; pause; post; pause; post])
            end
        end
    end
  ∧ (∃ t, (saveCookiesToFile cookies prefix w h).2 = h ++ t
          ∧ (1 ≤ countPosts t ≤ 3)%nat)
  ∧ (∀ caught : JsError,
      (errName caught = "AbortError" ∧ finalError caught = Error serverTimeout)
      ∨ (errName caught ≠ "AbortError"
         ∧ (∃ pre post,
              errMessage caught = pre +:+ "Failed to fetch" +:+ post
              ∨ errMessage caught = pre +:+ "NetworkError" +:+ post)
         ∧ finalError caught = Error cannotConnect)
      ∨ (errName caught ≠ "AbortError"
         ∧ (∀ pre post,
              errMessage caught ≠ pre +:+ "Failed to fetch" +:+ post
              ∧ errMessage caught ≠ pre +:+ "NetworkError" +:+ post)
         ∧ finalError caught = Error ("Server error: " +:+ errMessage caught)))
  ∧ (∀ reason : JsError,
      attemptError (Rejected reason) = Some reason)
  ∧ (∀ response,
      ok response = false →
      ∃ caught,
        attemptError (Resolved response) = Some caught
        ∧ errName caught = "Error"
        ∧ errMessage caught =
            "Server responded with " +:+ pretty (status response)
              +:+ ": " +:+ statusText response)
  ∧ (∀ response result text pre post,
      ok response = true →
      json response = inr result →
      success result = false →
      error result = Some text →
      (text = pre +:+ "Failed to fetch" +:+ post
       ∨ text = pre +:+ "NetworkError" +:+ post) →
      ∃ caught,
        attemptError (Resolved response) = Some caught
        ∧ finalError caught = Error cannotConnect).
Proof.
  intros body post pause.
  pose proof (saveCookiesToFile_run cookies prefix w h) as Hrun.
  cbv zeta in Hrun. fold body in Hrun. fold post pause in Hrun.
  split; [exact Hrun|]. split.
  { rewrite Hrun. repeat case_match; eexists; (split; [done|simpl; lia]). }
  split.
  { intros caught.
    destruct (finalError_cases caught)
      as [Habort|[(Hname & HMsg & Hfinal)|(Hname & Hfetch & Hnet & Hfinal)]].
    - by left.
    - right; left. split; [done|]. split; [|done].
      apply orb_true_iff in HMsg as [Hin|Hin];
        apply includes_spec in Hin as (pre' & post' & Hin);
        exists pre', post'; [by left|by right].
    - right; right. split; [done|]. split; [|done].
      intros pre' post'. split.
      + by apply includes_false_spec.
      + by apply includes_false_spec. }
  split; [done|]. split.
  { intros response Hok. eexists. unfold attemptError. rewrite Hok. simpl.
    by split. }
  intros response result text pre' post' Hok Hjson Hsuccess Herror Htext.
  assert (text ≠ "") as Hnonempty.
  { destruct Htext as [-> | ->]; by destruct pre'. }
  eexists. split; [by eapply attemptError_reply_text|].
  unfold finalError, Error. cbn [errName errMessage].
  rewrite decide_False by done.
  assert (includes ("Server error: " +:+ text) "Failed to fetch"
          || includes ("Server error: " +:+ text) "NetworkError" = true)
    as ->; [|done].
  apply orb_true_iff.
  destruct Htext as [-> | ->]; [left|right]; apply includes_spec;
    exists ("Server error: " +:+ pre'), post'; reflexivity.
Qed.

(** C5, the claim as first stated fails: every one of the three requests
    reaches the endpoint and is answered with status 200, none is aborted
    and none fails to connect, yet the error raised is the connection
    message and not the generic server error. *)
Lemma saveCookiesToFile_connection_message_for_reply :
  let body := makeCookieData [] "all_cookies" "2024-05-01T10:00:00.000Z"
                "2024-05-01T10:00:00.000Z" in
  let post := EvPost body in
  let pause := EvSleep 1000 in
  (∀ h, fetchCookies quotaWorld h body = Resolved quotaReply)
  ∧ ok quotaReply = true
  ∧ status quotaReply = 200%N
  ∧ attemptError (Resolved quotaReply) =
      Some (Error "Server error: Failed to fetch upstream quota")
  ∧ saveCookiesToFile [] "all_cookies" quotaWorld [] =
      (inl (Error cannotConnect), [post; pause; post; pause; post])
  ∧ ¬ ∃ text,
        saveCookiesToFile [] "all_cookies" quotaWorld [] =
          (inl (Error ("Server error: " +:+ text)),
           [post; pause; post; pause; post]).
Proof.
  cbv zeta. split; [done|]. split; [done|]. split; [done|].
  split; [reflexivity|]. split; [reflexivity|].
  intros [text Htext]. vm_compute in Htext. discriminate Htext.
Qed.

(** Two connection failures, then success: three posts, two pauses. *)
Example saveCookiesToFile_third_attempt :
  ∃ body,
    saveCookiesToFile [] "all_cookies" flakyWorld [] =
      (inr (), [EvPost body; EvSleep 1000; EvPost body; EvSleep 1000; EvPost body])
    ∧ filename body = "all_cookies_2024-05-01T10-00-00-000Z.json".
Proof.
  exists (makeCookieData [] "all_cookies" "2024-05-01T10:00:00.000Z"
                         "2024-05-01T10:00:00.000Z").
  split; reflexivity.
Qed.

(** Three aborted requests: the timeout message, and no pause at the end. *)
Example saveCookiesToFile_timeout :
  ∃ body,
    saveCookiesToFile [] "all_cookies" stalledWorld [] =
      (inl (Error "Server timeout - please check if server is running"),
       [EvPost body; EvSleep 1000; EvPost body; EvSleep 1000; EvPost body]).
Proof.
  exists (makeCookieData [] "all_cookies" "2024-05-01T10:00:00.000Z"
                         "2024-05-01T10:00:00.000Z").
  reflexivity.
Qed.
End Delivery.

(** ** Extraction *)

Section Extraction.
Implicit Types (w : World) (h : list Event).

Lemma extends_ret {A} (x : A) : extends (mret x).
Proof. intros w h. exists []. by rewrite (right_id_L [] (++)). Qed.

Lemma extends_throw {A} e : extends (@throw A e).
Proof. intros w h. exists []. by rewrite (right_id_L [] (++)). Qed.

Lemma extends_emit e : extends (emit e).
Proof. intros w h. by exists [e]. Qed.

Lemma extends_ask : extends ask.
Proof. intros w h. exists []. by rewrite (right_id_L [] (++)). Qed.

Lemma extends_history : extends history.
Proof. intros w h. exists []. by rewrite (right_id_L [] (++)). Qed.

Lemma extends_bind {A B} (m : M A) (f : A → M B) :
  extends m → (∀ x, extends (f x)) → extends (m ≫= f).
Proof.
  intros Hm Hf w h. rewrite run_bind.
  destruct (Hm w h) as [t Ht]. destruct (m w h) as [[e|x] h']; simpl in *.
  - by exists t.
  - destruct (Hf x w h') as [t' Ht']. exists (t ++ t').
    by rewrite Ht', Ht, (assoc_L (++)).
Qed.

Lemma extends_try_catch {A} (body : M A) handler :
  extends body → (∀ e, extends (handler e)) → extends (try_catch body handler).
Proof.
  intros Hb Hh w h. unfold try_catch.
  destruct (Hb w h) as [t Ht]. destruct (body w h) as [[e|x] h']; simpl in *.
  - destruct (Hh e w h') as [t' Ht']. exists (t ++ t').
    by rewrite Ht', Ht, (assoc_L (++)).
  - by exists t.
Qed.

Lemma extends_settle {A} (r : JsError + A) : extends (settle r).
Proof. destruct r; [apply extends_throw|apply extends_ret]. Qed.

Lemma extends_await o : extends (await o).
Proof. destruct o; [apply extends_ret|apply extends_throw]. Qed.

Ltac extends_step :=
  first
    [ apply extends_ret | apply extends_throw | apply extends_emit
    | apply extends_ask | apply extends_history | apply extends_settle
    | apply extends_await
    | apply extends_bind; [|intros ?]
    | apply extends_try_catch; [|intros ?]
    | match goal with |- extends (if ?b then _ else _) => destruct b end
    | match goal with |- extends (match ?c with _ => _ end) => destruct c end ].

Lemma extends_retryLoop body attempt remaining :
  extends (retryLoop body attempt remaining).
Proof.
  revert attempt. induction remaining as [|remaining IH]; intros attempt; simpl.
  - apply extends_ret.
  - unfold postAttempt, fetch_cookies, sleep.
    repeat first [apply IH | extends_step].
Qed.

Lemma extends_saveCookiesToFile cookies prefix :
  extends (saveCookiesToFile cookies prefix).
Proof.
  unfold saveCookiesToFile, now_ISO.
  repeat first [apply extends_retryLoop | extends_step].
Qed.

Lemma extends_getAll domain : extends (chrome_cookies_getAll domain).
Proof. unfold chrome_cookies_getAll. repeat extends_step. Qed.

Lemma extends_domainCookies domain : extends (domainCookies domain).
Proof.
  unfold domainCookies.
  repeat first [apply extends_getAll | extends_step].
Qed.

Lemma checkServerAvailability_run w h :
  checkServerAvailability w h =
    (inr (probeSucceeds (fetchStatus w h)), h ++ [EvStatusProbe]).
Proof.
  unfold checkServerAvailability, try_catch, fetch_status. run_M.
  by destruct (fetchStatus w h).
Qed.

(** Whatever follows the availability check starts after the probe. *)
Lemma probe_first {A} (k : bool → M A) handler w h :
  (∀ b, extends (k b)) → (∀ e, extends (handler e)) →
  ∃ rest,
    (try_catch (checkServerAvailability ≫= k) handler w h).2 =
      h ++ EvStatusProbe :: rest.
Proof.
  intros Hk Hh. unfold try_catch. rewrite run_bind, checkServerAvailability_run.
  destruct (Hk (probeSucceeds (fetchStatus w h)) w (h ++ [EvStatusProbe]))
    as [t Ht].
  destruct (k _ w _) as [[e|x] h']; simpl in *; subst h'.
  - destruct (Hh e w ((h ++ [EvStatusProbe]) ++ t)) as [t' ->].
    exists (t ++ t'). by rewrite <- !(assoc_L (++)).
  - exists t. by rewrite <- (assoc_L (++)).
Qed.

(** C4: both extraction calls begin with the health probe, before any
    read of the cookie store; when the probe does not come back with a
    success status the call fails with the "server is not running" error
    and the probe is its only event: no cookie is read, nothing is
    posted. *)
Theorem extraction_requires_server url w h :
  (∃ rest, (extractAllCookies w h).2 = h ++ EvStatusProbe :: rest)
  ∧ (∃ rest, (extractCurrentDomainCookies url w h).2 = h ++ EvStatusProbe :: rest)
  ∧ (probeSucceeds (fetchStatus w h) = false →
     extractAllCookies w h =
       (inl (Error ("Failed to extract all cookies: " +:+ serverNotRunning)),
        h ++ [EvStatusProbe])
     ∧ extractCurrentDomainCookies url w h =
       (inl (Error ("Failed to extract domain cookies: " +:+ serverNotRunning)),
        h ++ [EvStatusProbe])).
Proof.
  split; [|split].
  - apply probe_first; intros;
      repeat first [apply extends_getAll | apply extends_saveCookiesToFile
                   | unfold now_ISO; extends_step].
  - apply probe_first; intros;
      repeat first [apply extends_domainCookies | apply extends_saveCookiesToFile
                   | unfold now_ISO; extends_step].
  - intros Hprobe.
    unfold extractAllCookies, extractCurrentDomainCookies, try_catch.
    rewrite !run_bind, checkServerAvailability_run, Hprobe. done.
Qed.

Lemma extraction_requires_server_witness :
  probeSucceeds (fetchStatus offlineWorld []) = false
  ∧ extractAllCookies offlineWorld [] =
      (inl (Error ("Failed to extract all cookies: " +:+ serverNotRunning)),
       [EvStatusProbe])
  ∧ extractCurrentDomainCookies "https://a.b.example.com/cart" offlineWorld [] =
      (inl (Error ("Failed to extract domain cookies: " +:+ serverNotRunning)),
       [EvStatusProbe]).
Proof.
  assert (probeSucceeds (fetchStatus offlineWorld []) = false) as H
    by reflexivity.
  split; [exact H|].
  exact (proj2 (proj2 (extraction_requires_server
                         "https://a.b.example.com/cart" offlineWorld [])) H).
Defined.
Lemma chrome_cookies_getAll_run domain w h :
  chrome_cookies_getAll domain w h =
    (cookiesGetAll w h domain, h ++ [EvGetAll domain]).
Proof.
  unfold chrome_cookies_getAll. run_M. by destruct (cookiesGetAll w h domain).
Qed.

(** The run of [extractCurrentDomainCookies] once the probe has succeeded,
    the URL has given its host name and the cookies have been fetched. *)
Lemma extractCurrentDomainCookies_run url w h domain merged h' :
  probeSucceeds (fetchStatus w h) = true →
  urlHostname w url = inr domain →
  domainCookies domain w (h ++ [EvStatusProbe]) = (inr merged, h') →
  let uniqueCookies := removeDuplicateCookies merged in
  let processedCookies := processCookies (dateISO w) uniqueCookies in
  extractCurrentDomainCookies url w h =
    match saveCookiesToFile processedCookies ("cookies_" +:+ domain) w h' with
    | (inl caught, h'') =>
        (inl (Error ("Failed to extract domain cookies: " +:+ errMessage caught)),
         h'')
    | (inr _, h'') =>
        (inr {| DomainResult.domain := domain;
                DomainResult.total := length uniqueCookies;
                DomainResult.cookies := processedCookies;
                DomainResult.timestamp := clockISO w h'' |}, h'')
    end.
Proof.
  intros Hprobe Hurl Hfetch uniqueCookies processedCookies.
  unfold extractCurrentDomainCookies, try_catch.
  rewrite run_bind, checkServerAvailability_run, Hprobe. cbn [negb].
  rewrite run_bind. cbn [ask]. rewrite run_bind, Hurl. cbn [settle].
  rewrite run_ret. cbv iota beta. rewrite run_bind, Hfetch. cbv iota beta.
  fold uniqueCookies. fold processedCookies. rewrite run_bind.
  destruct (saveCookiesToFile processedCookies _ w h') as [[caught|[]] h''];
    done.
Qed.


End Extraction.

(** * Further properties *)

(** ** Deduplication: what is kept *)

Section DeduplicationKept.
Implicit Types (c : Cookie.t) (cookies l : list Cookie.t) (seen : gset string).

Lemma filterUnseen_keys seen l k :
  k ∈ cookieKey <$> l → k ∈ seen ∨ k ∈ cookieKey <$> filterUnseen seen l.
Proof.
  revert seen. induction l as [|c l IH]; intros seen; csimpl.
  - by intros ?%elem_of_nil.
  - intros [->|Hk]%elem_of_cons.
    + case_decide; [by left|right; csimpl; left].
    + case_decide; [by apply IH|].
      destruct (IH ({[cookieKey c]} ∪ seen) Hk) as [Hin|Hin].
      * apply elem_of_union in Hin as [->%elem_of_singleton|Hin];
          [right; csimpl; left|by left].
      * right. csimpl. by right.
Qed.

Lemma sublist_same_length {A} (l1 l2 : list A) :
  l1 `sublist_of` l2 → length l1 = length l2 → l1 = l2.
Proof.
  induction 1 as [|x l1 l2 _ IH|x l1 l2 Hsub _]; simpl; intros Hlen.
  - done.
  - f_equal. apply IH. lia.
  - apply sublist_length in Hsub. lia.
Qed.

Lemma filterUnseen_head seen c l :
  cookieKey c ∉ seen → head (filterUnseen seen (c :: l)) = Some c.
Proof. intros Hc. simpl. by rewrite decide_False. Qed.

(** X1: The result is the input with some cookies struck out, in the same
    order; its keys are pairwise distinct; no key of the input is lost;
    and the first cookie is always kept. *)
Theorem removeDuplicateCookies_keeps_every_key cookies :
  removeDuplicateCookies cookies `sublist_of` cookies
  ∧ NoDup (cookieKey <$> removeDuplicateCookies cookies)
  ∧ (∀ k, k ∈ cookieKey <$> removeDuplicateCookies cookies
          ↔ k ∈ cookieKey <$> cookies)
  ∧ head (removeDuplicateCookies cookies) = head cookies.
Proof.
  unfold removeDuplicateCookies.
  split; [apply filterUnseen_sublist|]. split; [apply filterUnseen_NoDup|].
  split.
  - intros k. split.
    + intros (c & -> & Hc)%list_elem_of_fmap. apply list_elem_of_fmap_2.
      eapply elem_of_sublist; [done|apply filterUnseen_sublist].
    + intros Hk. destruct (filterUnseen_keys ∅ _ _ Hk) as [Hin|Hin]; [|done].
      by apply not_elem_of_empty in Hin.
  - destruct cookies as [|c l]; [done|].
    apply filterUnseen_head, not_elem_of_empty.
Qed.

(** X2: The list comes back unchanged exactly when its keys are pairwise
    distinct; otherwise it gets strictly shorter. *)
Theorem removeDuplicateCookies_fixpoint cookies :
  (removeDuplicateCookies cookies = cookies ↔ NoDup (cookieKey <$> cookies))
  ∧ (length (removeDuplicateCookies cookies) ≤ length cookies)%nat
  ∧ (length (removeDuplicateCookies cookies) = length cookies
     ↔ NoDup (cookieKey <$> cookies)).
Proof.
  assert (removeDuplicateCookies cookies = cookies
          ↔ NoDup (cookieKey <$> cookies)) as Hfix.
  { split.
    - intros <-. apply filterUnseen_NoDup.
    - intros Hnd. apply filterUnseen_id; [done|].
      intros c _. apply not_elem_of_empty. }
  split; [exact Hfix|].
  pose proof (filterUnseen_sublist ∅ cookies) as Hsub.
  split; [by apply sublist_length|].
  rewrite <- Hfix. split; [|by intros ->].
  intros Hlen. by apply sublist_same_length.
Qed.

Lemma cookieKey_of_triple c :
  cookieKey c =
    (λ t : string * string * string, t.1.1 +:+ "|" +:+ t.1.2 +:+ "|" +:+ t.2)
      (cookieTriple c).
Proof. reflexivity. Qed.

Lemma key_seen_iff_triple_seen c l :
  pipeFree c → Forall pipeFree l →
  cookieKey c ∈ cookieKey <$> l ↔ cookieTriple c ∈ cookieTriple <$> l.
Proof.
  intros [Hn Hd] Hl. rewrite Forall_forall in Hl. split.
  - intros (k & Hkey & Hk)%list_elem_of_fmap.
    destruct (Hl k Hk) as [Hn' Hd'].
    destruct (cookieKey_inj c k Hn Hn' Hd Hd' Hkey) as (En & Ed & Ep).
    apply list_elem_of_fmap. exists k. split; [|done].
    unfold cookieTriple. by rewrite En, Ed, Ep.
  - intros (k & Htriple & Hk)%list_elem_of_fmap.
    apply list_elem_of_fmap. exists k. split; [|done].
    by rewrite !cookieKey_of_triple, Htriple.
Qed.

(** X3: When no name and no domain contains the separator, the first cookie
    of each (name, domain, path) wins: a cookie is kept at its place
    exactly when no cookie before it has the same three fields, and the
    result has pairwise distinct triples. *)
Theorem removeDuplicateCookies_first_triple_wins l1 c l2 :
  Forall pipeFree (l1 ++ c :: l2) →
  NoDup (cookieTriple <$> removeDuplicateCookies (l1 ++ c :: l2))
  ∧ ∃ rest,
      removeDuplicateCookies (l1 ++ c :: l2) =
        removeDuplicateCookies l1
        ++ (if decide (cookieTriple c ∈ cookieTriple <$> l1) then [] else [c])
        ++ rest
      ∧ rest `sublist_of` l2.
Proof.
  intros [Hl1 [Hc Hl2]%Forall_cons]%Forall_app. split.
  - eapply (NoDup_fmap_1 (λ t : string * string * string,
              t.1.1 +:+ "|" +:+ t.1.2 +:+ "|" +:+ t.2)).
    rewrite <- list_fmap_compose.
    apply (filterUnseen_NoDup ∅).
  - unfold removeDuplicateCookies. rewrite filterUnseen_app.
    rewrite (right_id_L ∅ (∪)). cbn [filterUnseen].
    pose proof (key_seen_iff_triple_seen c l1 Hc Hl1) as Hiff.
    destruct (decide (cookieKey c ∈ _)) as [Hin|Hout].
    + rewrite elem_of_list_to_set in Hin.
      rewrite decide_True by (by apply Hiff).
      eexists. split; [done|]. apply filterUnseen_sublist.
    + rewrite elem_of_list_to_set in Hout.
      rewrite decide_False by (by rewrite <- Hiff).
      eexists. split; [done|]. apply filterUnseen_sublist.
Qed.

Lemma removeDuplicateCookies_first_triple_wins_witness :
  Forall pipeFree ([hostCookie] ++ hostCookie :: [parentCookie])
  ∧ NoDup (cookieTriple <$>
             removeDuplicateCookies ([hostCookie] ++ hostCookie :: [parentCookie])).
Proof.
  assert (Forall pipeFree ([hostCookie] ++ hostCookie :: [parentCookie])) as H
    by (repeat constructor).
  split; [exact H|].
  exact (proj1 (removeDuplicateCookies_first_triple_wins
                  [hostCookie] hostCookie [parentCookie] H)).
Defined.
End DeduplicationKept.

(** ** Processing and the histograms of the summary *)

Section Histograms.
Implicit Types (cookies : list Processed.t) (raw : list Cookie.t).
Implicit Types (hist acc : gmap string nat) (k : string).

Lemma String_length_append (s t : string) :
  String.length (s +:+ t) = (String.length s + String.length t)%nat.
Proof. induction s as [|a s IH]; [done|]. rewrite append_cons. simpl. by rewrite IH. Qed.

Lemma categorizeCookie_in_categories (cookie : Cookie.t) :
  categorizeCookie cookie ∈ categories.
Proof.
  unfold categorizeCookie, categories.
  repeat case_match; repeat first [by left | right].
Qed.

Lemma assessSecurityLevel_in_tiers (cookie : Cookie.t) :
  assessSecurityLevel cookie ∈ tiers.
Proof.
  unfold assessSecurityLevel, tiers. cbv zeta.
  repeat case_match; repeat first [by left | right].
Qed.

(** X4: When every expiration date is one [Date] can hold, so that no
    conversion throws, [processCookies] keeps the number and the order of
    the cookies; each processed cookie carries the identifying fields of
    its cookie, the size is the length of the name plus the length of the
    value, the category and the tier come from the fixed lists, and the
    expiration is null exactly when the cookie's expiration date is
    falsy. *)
Theorem processCookies_entries (toISO : Q → string) raw :
  Forall (λ cookie, validExpiration cookie = true) raw →
  length (processCookies toISO raw) = length raw
  ∧ Forall2
      (λ cookie p,
         Processed.name p = Cookie.name cookie
         ∧ Processed.value p = Cookie.value cookie
         ∧ Processed.domain p = Cookie.domain cookie
         ∧ Processed.path p = Cookie.path cookie
         ∧ Processed.size p =
             (String.length (Cookie.name cookie)
              + String.length (Cookie.value cookie))%nat
         ∧ Processed.cookieType p ∈ categories
         ∧ Processed.securityLevel p ∈ tiers
         ∧ (Processed.expirationDate p = None
            ↔ js_truthy_num (Cookie.expirationDate cookie) = false)
         ∧ (js_truthy_num (Cookie.expirationDate cookie) = true →
            ∃ x, Cookie.expirationDate cookie = Some x
                 ∧ convertible x = true
                 ∧ Processed.expirationDate p = Some (toISO x)))
      raw (processCookies toISO raw).
Proof.
  intros Hvalid.
  unfold processCookies. split; [apply length_fmap|].
  apply Forall2_fmap_r, Forall_Forall2_diag.
  eapply Forall_impl; [exact Hvalid|].
  intros cookie Hcookie. simpl. repeat split; try done.
  - apply String_length_append.
  - apply categorizeCookie_in_categories.
  - apply assessSecurityLevel_in_tiers.
  - destruct (js_truthy_num _) eqn:Ht; [|done].
    destruct (Cookie.expirationDate cookie); [done|discriminate].
  - by intros ->.
  - intros Ht. unfold validExpiration in Hcookie. rewrite Ht.
    destruct (Cookie.expirationDate cookie) as [x|]; [|discriminate].
    exists x. rewrite Ht in Hcookie. by repeat split.
Qed.

Lemma processCookies_entries_witness :
  Forall (λ cookie, validExpiration cookie = true) [hostCookie; parentCookie]
  ∧ length (processCookies (λ _, "2030-01-01T00:00:00.000Z")
              [hostCookie; parentCookie]) = 2%nat.
Proof.
  assert (Forall (λ cookie, validExpiration cookie = true)
            [hostCookie; parentCookie]) as H
    by (repeat constructor).
  split; [exact H|].
  exact (proj1 (processCookies_entries (λ _, "2030-01-01T00:00:00.000Z")
                  [hostCookie; parentCookie] H)).
Defined.

(** A date of nine million million seconds is beyond the range. *)
Example validExpiration_range :
  validExpiration parentCookie = true
  ∧ validExpiration hostCookie = true
  ∧ validExpiration endlessCookie = false.
Proof. repeat split. Qed.

Lemma increment_lookup acc k k' :
  increment acc k' !! k =
    if decide (k' = k) then Some (tally acc k + 1)%nat else acc !! k.
Proof.
  unfold increment, tally. case_decide as Hk.
  - subst. by rewrite lookup_insert_eq.
  - by rewrite lookup_insert_ne.
Qed.

Lemma tally_increment acc k k' :
  tally (increment acc k') k =
    if decide (k' = k) then (tally acc k + 1)%nat else tally acc k.
Proof.
  unfold tally at 1. rewrite increment_lookup. by case_decide.
Qed.

(** The fold behind both histograms counts the items of each key. *)
Lemma foldl_increment_lookup {A} (key : A → string) (l : list A) acc k :
  let n := length (List.filter (λ x, bool_decide (key x = k)) l) in
  foldl (λ acc x, increment acc (key x)) acc l !! k =
    if decide (n = 0)%nat then acc !! k else Some (tally acc k + n)%nat.
Proof.
  revert acc. induction l as [|x l IH]; intros acc; [done|].
  cbn [foldl List.filter]. cbv zeta in IH |- *. rewrite IH.
  rewrite increment_lookup, tally_increment.
  destruct (decide (key x = k)) as [Hk|Hk].
  - rewrite (bool_decide_eq_true_2 _ Hk). cbn [length].
    rewrite (decide_False (P := S _ = 0%nat)) by done.
    case_decide as Hn; [rewrite Hn|]; f_equal; unfold tally; lia.
  - by rewrite (bool_decide_eq_false_2 _ Hk).
Qed.

Lemma generateSummary_lookups cookies k :
  Summary.cookieTypeDistribution (generateSummary cookies) !! k =
    (if decide (countType k cookies = 0)%nat then None
     else Some (countType k cookies))
  ∧ Summary.securityLevelDistribution (generateSummary cookies) !! k =
      (if decide (countLevel k cookies = 0)%nat then None
       else Some (countLevel k cookies)).
Proof.
  unfold generateSummary, countType, countLevel.
  cbn [Summary.cookieTypeDistribution Summary.securityLevelDistribution].
  pose proof (foldl_increment_lookup Processed.cookieType cookies ∅ k) as Ht.
  pose proof (foldl_increment_lookup Processed.securityLevel cookies ∅ k) as Hl.
  cbv zeta in Ht, Hl. rewrite Ht, Hl. unfold tally. by rewrite !lookup_empty.
Qed.

(** X5: For processed cookies whose category is one of the five and whose
    tier is one of the three (the labels [processCookies] writes), each
    histogram of the summary gives, under every key, the number of input
    cookies with that category (or tier), and has no entry for a key that
    no cookie carries. *)
Theorem generateSummary_histograms cookies k :
  Forall (λ p, Processed.cookieType p ∈ categories
               ∧ Processed.securityLevel p ∈ tiers) cookies →
  let s := generateSummary cookies in
  tally (Summary.cookieTypeDistribution s) k = countType k cookies
  ∧ (Summary.cookieTypeDistribution s !! k = None ↔ countType k cookies = 0%nat)
  ∧ tally (Summary.securityLevelDistribution s) k = countLevel k cookies
  ∧ (Summary.securityLevelDistribution s !! k = None
     ↔ countLevel k cookies = 0%nat).
Proof.
  intros _. cbv zeta. unfold tally.
  destruct (generateSummary_lookups cookies k) as [-> ->].
  repeat split; repeat case_decide; simpl; try done; lia.
Qed.

Lemma generateSummary_histograms_witness :
  let cookies := processCookies (λ _, "2030-01-01T00:00:00.000Z")
                   [hostCookie; parentCookie] in
  Forall (λ p, Processed.cookieType p ∈ categories
               ∧ Processed.securityLevel p ∈ tiers) cookies
  ∧ tally (Summary.cookieTypeDistribution (generateSummary cookies))
          "secure-httponly" = 1%nat
  ∧ tally (Summary.securityLevelDistribution (generateSummary cookies))
          "low" = 1%nat.
Proof.
  intros cookies.
  assert (Forall (λ p, Processed.cookieType p ∈ categories
                       ∧ Processed.securityLevel p ∈ tiers) cookies) as H.
  { repeat constructor; simpl; unfold categories, tiers;
      rewrite !elem_of_cons; repeat (first [left; reflexivity | right]). }
  split; [exact H|].
  destruct (generateSummary_histograms cookies "secure-httponly" H)
    as (Htype & _).
  destruct (generateSummary_histograms cookies "low" H)
    as (_ & _ & Hlevel & _).
  split; [exact Htype|exact Hlevel].
Defined.

Lemma countType_cons k (p : Processed.t) cookies :
  countType k (p :: cookies) =
    ((if bool_decide (Processed.cookieType p = k) then 1 else 0)
     + countType k cookies)%nat.
Proof. unfold countType. simpl. by case_bool_decide. Qed.

Lemma countLevel_cons k (p : Processed.t) cookies :
  countLevel k (p :: cookies) =
    ((if bool_decide (Processed.securityLevel p = k) then 1 else 0)
     + countLevel k cookies)%nat.
Proof. unfold countLevel. simpl. by case_bool_decide. Qed.

Lemma countType_categories cookies :
  Forall (λ p, Processed.cookieType p ∈ categories) cookies →
  (countType "secure-httponly" cookies + countType "httponly" cookies
   + countType "secure" cookies + countType "session" cookies
   + countType "regular" cookies = length cookies)%nat.
Proof.
  induction 1 as [|p cookies Hp _ IH]; [done|].
  rewrite !countType_cons. cbn [length]. rewrite <- IH.
  unfold categories in Hp. set_unfold.
  destruct Hp as [->|[->|[->|[->|[->|[]]]]]]; simpl; lia.
Qed.

Lemma countLevel_tiers cookies :
  Forall (λ p, Processed.securityLevel p ∈ tiers) cookies →
  (countLevel "high" cookies + countLevel "medium" cookies
   + countLevel "low" cookies = length cookies)%nat.
Proof.
  induction 1 as [|p cookies Hp _ IH]; [done|].
  rewrite !countLevel_cons. cbn [length]. rewrite <- IH.
  unfold tiers in Hp. set_unfold.
  destruct Hp as [->|[->|[->|[]]]]; simpl; lia.
Qed.

Lemma processCookies_ranges (toISO : Q → string) raw :
  Forall (λ p, Processed.cookieType p ∈ categories
               ∧ Processed.securityLevel p ∈ tiers)
         (processCookies toISO raw).
Proof.
  unfold processCookies. apply Forall_fmap, Forall_forall. intros c _. simpl.
  split; [apply categorizeCookie_in_categories|apply assessSecurityLevel_in_tiers].
Qed.

(** X6: In the summary of processed cookies the five category counts add up
    to the number of cookies, and so do the three tier counts; the
    histograms have no other keys. *)
Theorem summary_counts_add_up (toISO : Q → string) raw :
  let s := generateSummary (processCookies toISO raw) in
  let types := Summary.cookieTypeDistribution s in
  let levels := Summary.securityLevelDistribution s in
  (tally types "secure-httponly" + tally types "httponly"
   + tally types "secure" + tally types "session" + tally types "regular"
   = length raw)%nat
  ∧ (tally levels "high" + tally levels "medium" + tally levels "low"
     = length raw)%nat
  ∧ (∀ k, is_Some (types !! k) → k ∈ categories)
  ∧ (∀ k, is_Some (levels !! k) → k ∈ tiers)
  ∧ Summary.totalCookies s = length raw.
Proof.
  intros s types levels.
  pose proof (processCookies_ranges toISO raw) as Hr.
  assert (∀ k, tally types k = countType k (processCookies toISO raw)
               ∧ tally levels k = countLevel k (processCookies toISO raw)) as Ht.
  { intros k. unfold tally, types, levels, s.
    destruct (generateSummary_lookups (processCookies toISO raw) k) as [-> ->].
    split; case_decide; simpl; lia. }
  assert (length (processCookies toISO raw) = length raw) as Hlen
    by apply length_fmap.
  split; [|split; [|split; [|split]]].
  - rewrite !(proj1 (Ht _)), <- Hlen. apply countType_categories.
    eapply Forall_impl; [exact Hr|]. by intros p [? _].
  - rewrite !(proj2 (Ht _)), <- Hlen. apply countLevel_tiers.
    eapply Forall_impl; [exact Hr|]. by intros p [_ ?].
  - intros k Hk. unfold types, s in Hk.
    rewrite (proj1 (generateSummary_lookups _ k)) in Hk.
    destruct (decide (countType k (processCookies toISO raw) = 0%nat)) as [Hz|Hz];
      [by destruct Hk|].
    unfold countType in Hz.
    destruct (List.filter _ _) as [|p ?] eqn:Hf; [done|].
    assert (In p (List.filter
                    (λ p, bool_decide (Processed.cookieType p = k))
                    (processCookies toISO raw))) as Hin
      by (rewrite Hf; by left).
    apply filter_In in Hin as [Hin Hpk]. apply bool_decide_eq_true_1 in Hpk.
    rewrite Forall_forall in Hr. rewrite <- Hpk.
    apply Hr. by apply list_elem_of_In.
  - intros k Hk. unfold levels, s in Hk.
    rewrite (proj2 (generateSummary_lookups _ k)) in Hk.
    destruct (decide (countLevel k (processCookies toISO raw) = 0%nat)) as [Hz|Hz];
      [by destruct Hk|].
    unfold countLevel in Hz.
    destruct (List.filter _ _) as [|p ?] eqn:Hf; [done|].
    assert (In p (List.filter
                    (λ p, bool_decide (Processed.securityLevel p = k))
                    (processCookies toISO raw))) as Hin
      by (rewrite Hf; by left).
    apply filter_In in Hin as [Hin Hpk]. apply bool_decide_eq_true_1 in Hpk.
    rewrite Forall_forall in Hr. rewrite <- Hpk.
    apply Hr. by apply list_elem_of_In.
  - exact Hlen.
Qed.
End Histograms.

(** ** Bounds in the summary *)

Section SummaryBounds.
Implicit Types (cookies : list Processed.t) (xs : list nat).

Lemma foldl_max_spec (x : nat) xs :
  let m := foldl Nat.max x xs in
  (x ≤ m)%nat ∧ Forall (λ y, (y ≤ m)%nat) xs ∧ (m = x ∨ m ∈ xs).
Proof.
  revert x. induction xs as [|y xs IH]; intros x; cbn [foldl].
  - split; [done|]. split; [constructor|by left].
  - destruct (IH (x `max` y)%nat) as (Hle & Hall & Hin). cbv zeta in *.
    split; [lia|]. split; [constructor; [lia|done]|].
    destruct Hin as [Hm|Hm]; [|by right; right].
    destruct (Nat.max_spec x y) as [[_ E]|[_ E]];
      [right; apply elem_of_cons; left|left]; congruence.
Qed.

(** X7: [largestCookie] is the size of a largest cookie of the list, and
    minus infinity for the empty list. *)
Theorem generateSummary_largest cookies :
  match cookies with
  | [] => Summary.largestCookie (generateSummary cookies) = JNegInfinity
  | _ :: _ =>
      ∃ m : nat,
        Summary.largestCookie (generateSummary cookies)
          = JNum (inject_Z (Z.of_nat m))
        ∧ (∀ c, c ∈ cookies → (Processed.size c ≤ m)%nat)
        ∧ ∃ c, c ∈ cookies ∧ Processed.size c = m
  end.
Proof.
  destruct cookies as [|c cookies]; [done|].
  unfold generateSummary. cbn [Summary.largestCookie]. csimpl.
  destruct (foldl_max_spec (Processed.size c) (Processed.size <$> cookies))
    as (Hc & Hall & Hin). cbv zeta in *.
  eexists. split; [done|]. split.
  - intros c' [->|Hc']%elem_of_cons; [done|].
    rewrite Forall_fmap, Forall_forall in Hall. by apply Hall.
  - destruct Hin as [Hm|(c' & Hm & Hc')%list_elem_of_fmap].
    + exists c. split; [by left|done].
    + exists c'. split; [by right|done].
Qed.

Lemma sum_list_bounds (lo hi : nat) xs :
  Forall (λ y, (lo ≤ y ≤ hi)%nat) xs →
  (length xs * lo ≤ sum_list xs ≤ length xs * hi)%nat.
Proof. induction 1; simpl; lia. Qed.

(** X8: For a non-empty list the rounded mean lies between the smallest and
    the largest size: it is an integer that no cookie size exceeds on
    both sides. *)
Theorem generateSummary_average_within cookies (lo hi : nat) :
  cookies ≠ [] →
  (∀ c, c ∈ cookies → (lo ≤ Processed.size c ≤ hi)%nat) →
  ∃ r : Z,
    Summary.averageCookieSize (generateSummary cookies) = JNum (inject_Z r)
    ∧ Z.of_nat lo ≤ r ≤ Z.of_nat hi.
Proof.
  intros Hne Hb. destruct cookies as [|c cookies]; [done|].
  unfold generateSummary. cbn [Summary.averageCookieSize].
  rewrite foldl_size_sum, Nat.add_0_l.
  assert (Forall (λ y, (lo ≤ y ≤ hi)%nat) (Processed.size <$> c :: cookies))
    as Hall.
  { apply Forall_fmap, Forall_forall. intros c' Hc'. by apply Hb. }
  apply sum_list_bounds in Hall. rewrite length_fmap in Hall.
  set (total := sum_list (Processed.size <$> c :: cookies)) in *.
  set (n := length (c :: cookies)) in *.
  assert (∃ p, Z.of_nat n = Z.pos p) as [p Hp].
  { exists (Pos.of_succ_nat (length cookies)). unfold n. simpl. lia. }
  rewrite Hp, Math_round_js_div. eexists. split; [done|].
  split.
  - apply Z.div_le_lower_bound; lia.
  - apply Z.lt_succ_r, Z.div_lt_upper_bound; lia.
Qed.

Lemma generateSummary_average_within_witness :
  ∃ r : Z,
    Summary.averageCookieSize
      (generateSummary (processCookies (λ _, "") [hostCookie; parentCookie]))
      = JNum (inject_Z r)
    ∧ 5 ≤ r ≤ 9.
Proof.
  apply (generateSummary_average_within _ 5 9); [done|].
  intros c Hc. unfold processCookies in Hc. csimpl in Hc.
  rewrite !elem_of_cons, elem_of_nil in Hc.
  destruct Hc as [->|[->|[]]]; simpl; lia.
Defined.

Lemma Set_spread_size (xs : list string) :
  length (Set_spread xs) = size (list_to_set xs : gset string).
Proof.
  rewrite <- (size_list_to_set (C := gset string) (Set_spread xs))
    by apply Set_spread_NoDup.
  f_equal. apply set_eq. intros x.
  by rewrite !elem_of_list_to_set, Set_spread_elem.
Qed.

(** X9: [uniqueDomains] is the number of distinct domain values; it is at
    most the number of cookies, and zero only for the empty list. *)
Theorem generateSummary_uniqueDomains cookies :
  let s := generateSummary cookies in
  Summary.uniqueDomains s
    = size (list_to_set (Processed.domain <$> cookies) : gset string)
  ∧ (Summary.uniqueDomains s ≤ Summary.totalCookies s)%nat
  ∧ Summary.totalCookies s = length cookies
  ∧ (Summary.uniqueDomains s = 0%nat ↔ cookies = []).
Proof.
  cbv zeta. unfold generateSummary.
  cbn [Summary.uniqueDomains Summary.totalCookies].
  split; [apply Set_spread_size|].
  assert (length (Set_spread (Processed.domain <$> cookies)) ≤ length cookies)%nat
    as Hle.
  { rewrite <- (length_fmap Processed.domain cookies).
    apply submseteq_length, NoDup_submseteq; [apply Set_spread_NoDup|].
    intros x. by rewrite Set_spread_elem. }
  split; [done|]. split; [done|]. split.
  - intros Hz. destruct cookies as [|c cookies]; [done|]. exfalso.
    assert (Processed.domain c ∈ Set_spread (Processed.domain <$> c :: cookies))
      as Hin by (apply Set_spread_elem; left).
    apply length_zero_iff_nil in Hz. rewrite Hz in Hin.
    by apply elem_of_nil in Hin.
  - by intros ->.
Qed.
End SummaryBounds.

(** ** Statistics *)

Section Statistics.
Implicit Types (w : World) (h : list Event) (raw : list Cookie.t).

Lemma getCookieStatistics_run w h :
  getCookieStatistics w h =
    (match cookiesGetAll w h None with
     | inl reason => inl reason
     | inr cookies =>
         inr {| Stats.total := length cookies;
                Stats.httpOnly := countIf Cookie.httpOnly cookies;
                Stats.secure := countIf Cookie.secure cookies;
                Stats.session := countIf Cookie.session cookies;
                Stats.sameSiteStrict :=
                  countIf (λ c, bool_decide (Cookie.sameSite c = "Strict")) cookies;
                Stats.sameSiteLax :=
                  countIf (λ c, bool_decide (Cookie.sameSite c = "Lax")) cookies;
                Stats.sameSiteNone :=
                  countIf (λ c, bool_decide (Cookie.sameSite c = "None")) cookies;
                Stats.domains := length (Set_spread (Cookie.domain <$> cookies)) |}
     end, h ++ [EvGetAll None]).
Proof.
  unfold getCookieStatistics. rewrite run_bind, chrome_cookies_getAll_run.
  by destruct (cookiesGetAll w h None).
Qed.

Lemma countIf_le pred raw : (countIf pred raw ≤ length raw)%nat.
Proof.
  unfold countIf. induction raw as [|c raw IH]; simpl; [done|].
  destruct (pred c); simpl; lia.
Qed.

Lemma countIf_sameSite_le raw :
  (countIf (λ c, bool_decide (Cookie.sameSite c = "Strict")) raw
   + countIf (λ c, bool_decide (Cookie.sameSite c = "Lax")) raw
   + countIf (λ c, bool_decide (Cookie.sameSite c = "None")) raw
   ≤ length raw)%nat.
Proof.
  unfold countIf. induction raw as [|c raw IH]; simpl; [done|].
  repeat case_bool_decide; simpl; try lia; congruence.
Qed.

Lemma Set_spread_length_le (xs : list string) :
  (length (Set_spread xs) ≤ length xs)%nat.
Proof.
  apply submseteq_length, NoDup_submseteq; [apply Set_spread_NoDup|].
  intros x. by rewrite Set_spread_elem.
Qed.

(** X10: [getCookieStatistics] reads the whole store once and does nothing
    else: no probe, no post. A failure of the read is thrown as it is; on
    success every count is at most the total, the three same-site counts
    together are at most the total, and the number of domains is zero
    only for an empty store. *)
Theorem getCookieStatistics_counts w h :
  (getCookieStatistics w h).2 = h ++ [EvGetAll None]
  ∧ match (getCookieStatistics w h).1 with
    | inl reason => cookiesGetAll w h None = inl reason
    | inr stats =>
        ∃ cookies,
          cookiesGetAll w h None = inr cookies
          ∧ Stats.total stats = length cookies
          ∧ (Stats.httpOnly stats ≤ Stats.total stats)%nat
          ∧ (Stats.secure stats ≤ Stats.total stats)%nat
          ∧ (Stats.session stats ≤ Stats.total stats)%nat
          ∧ (Stats.sameSiteStrict stats + Stats.sameSiteLax stats
             + Stats.sameSiteNone stats ≤ Stats.total stats)%nat
          ∧ (Stats.domains stats ≤ Stats.total stats)%nat
          ∧ (Stats.domains stats = 0%nat ↔ Stats.total stats = 0%nat)
    end.
Proof.
  rewrite getCookieStatistics_run. split; [done|]. cbn [fst].
  destruct (cookiesGetAll w h None) as [reason|cookies]; [done|].
  exists cookies. cbn. split; [done|]. split; [done|].
  split; [apply countIf_le|]. split; [apply countIf_le|].
  split; [apply countIf_le|]. split; [apply countIf_sameSite_le|].
  pose proof (Set_spread_length_le (Cookie.domain <$> cookies)) as Hle.
  rewrite length_fmap in Hle. split; [done|].
  destruct cookies as [|c cookies]; [done|].
  split; [|done]. intros Hz%length_zero_iff_nil. exfalso.
  assert (Cookie.domain c ∈ Set_spread (Cookie.domain <$> c :: cookies)) as Hin
    by (apply Set_spread_elem; left).
  rewrite Hz in Hin. by apply elem_of_nil in Hin.
Qed.

Lemma processCookies_cons (toISO : Q → string) c raw :
  ∃ p, processCookies toISO (c :: raw) = p :: processCookies toISO raw
       ∧ Processed.cookieType p = categorizeCookie c
       ∧ Processed.domain p = Cookie.domain c.
Proof. eexists. split; [reflexivity|done]. Qed.

Lemma countIf_flags_by_category (toISO : Q → string) raw :
  countIf Cookie.httpOnly raw =
    (countType "secure-httponly" (processCookies toISO raw)
     + countType "httponly" (processCookies toISO raw))%nat
  ∧ countIf Cookie.secure raw =
      (countType "secure-httponly" (processCookies toISO raw)
       + countType "secure" (processCookies toISO raw))%nat
  ∧ (countType "session" (processCookies toISO raw)
     ≤ countIf Cookie.session raw)%nat.
Proof.
  induction raw as [|c raw (IH1 & IH2 & IH3)]; [done|].
  destruct (processCookies_cons toISO c raw) as (p & -> & Hp & _).
  rewrite !countType_cons, Hp. unfold countIf in *. cbn [List.filter].
  unfold categorizeCookie.
  destruct (Cookie.httpOnly c), (Cookie.secure c), (Cookie.session c);
    simpl; lia.
Qed.

(** X11: The statistics agree with the summary of the same cookies: the
    httpOnly count is the sum of the categories secure-httponly and
    httponly, the secure count the sum of secure-httponly and secure, the
    session count is at least the category session, and total and
    domains are the summary's totalCookies and uniqueDomains. *)
Theorem getCookieStatistics_matches_summary (toISO : Q → string) w h stats h' :
  getCookieStatistics w h = (inr stats, h') →
  ∃ cookies,
    cookiesGetAll w h None = inr cookies
    ∧ let s := generateSummary (processCookies toISO cookies) in
      let types := Summary.cookieTypeDistribution s in
      Stats.total stats = Summary.totalCookies s
      ∧ Stats.domains stats = Summary.uniqueDomains s
      ∧ Stats.httpOnly stats
        = (tally types "secure-httponly" + tally types "httponly")%nat
      ∧ Stats.secure stats
        = (tally types "secure-httponly" + tally types "secure")%nat
      ∧ (tally types "session" ≤ Stats.session stats)%nat.
Proof.
  rewrite getCookieStatistics_run.
  destruct (cookiesGetAll w h None) as [reason|cookies]; [done|].
  intros [= <- <-]. exists cookies. split; [done|]. cbv zeta.
  assert (∀ k, tally (Summary.cookieTypeDistribution
                        (generateSummary (processCookies toISO cookies))) k
               = countType k (processCookies toISO cookies)) as Ht.
  { intros k. unfold tally.
    rewrite (proj1 (generateSummary_lookups _ k)). case_decide; simpl; lia. }
  rewrite !Ht. cbn.
  destruct (countIf_flags_by_category toISO cookies) as (H1 & H2 & H3).
  split; [unfold processCookies; by rewrite length_fmap|]. split; [|done].
  unfold processCookies. by rewrite <- list_fmap_compose.
Qed.

Lemma getCookieStatistics_matches_summary_witness :
  getCookieStatistics offlineWorld []
    = (inr (Stats.mk 2 1 1 1 1 1 0 2), [EvGetAll None])
  ∧ ∃ cookies,
      cookiesGetAll offlineWorld [] None = inr cookies
      ∧ let s := generateSummary (processCookies (λ _, "") cookies) in
        let types := Summary.cookieTypeDistribution s in
        2%nat = Summary.totalCookies s
        ∧ 2%nat = Summary.uniqueDomains s
        ∧ 1%nat = (tally types "secure-httponly" + tally types "httponly")%nat
        ∧ 1%nat = (tally types "secure-httponly" + tally types "secure")%nat
        ∧ (tally types "session" ≤ 1)%nat.
Proof.
  assert (getCookieStatistics offlineWorld []
          = (inr (Stats.mk 2 1 1 1 1 1 0 2), [EvGetAll None])) as H
    by reflexivity.
  split; [exact H|].
  exact (getCookieStatistics_matches_summary (λ _, "") offlineWorld [] _ _ H).
Defined.
End Statistics.

(** ** Outcomes of delivery and extraction *)

Section Outcomes.
Implicit Types (w : World) (h : list Event).

Lemma saveCookiesToFile_returned cookies prefix w h (u : ()) h' :
  saveCookiesToFile cookies prefix w h = (inr u, h') →
  let body := makeCookieData cookies prefix (clockISO w h) (clockISO w h) in
  ∃ before,
    h' = before ++ [EvPost body]
    ∧ attemptError (fetchCookies w before body) = None.
Proof.
  intros Hsave body.
  pose proof (saveCookiesToFile_run cookies prefix w h) as Hrun.
  cbv zeta in Hrun. fold body in Hrun. rewrite Hrun in Hsave. clear Hrun.
  destruct (attemptError (fetchCookies w h body)) eqn:H1.
  2: { injection Hsave as _ <-. by exists h. }
  destruct (attemptError (fetchCookies w (h ++ [_; _]) body)) eqn:H2.
  2: { injection Hsave as _ <-. exists (h ++ [EvPost body; EvSleep 1000]).
       by rewrite <- (assoc_L (++)). }
  destruct (attemptError (fetchCookies w (h ++ [_; _; _; _]) body)) eqn:H3;
    [done|].
  injection Hsave as _ <-.
  exists (h ++ [EvPost body; EvSleep 1000; EvPost body; EvSleep 1000]).
  by rewrite <- (assoc_L (++)).
Qed.

Lemma saveCookiesToFile_thrown cookies prefix w h thrown h' :
  saveCookiesToFile cookies prefix w h = (inl thrown, h') →
  let body := makeCookieData cookies prefix (clockISO w h) (clockISO w h) in
  h' = h ++ [EvPost body; EvSleep 1000; EvPost body; EvSleep 1000; EvPost body]
  ∧ (thrown = Error serverTimeout ∨ thrown = Error cannotConnect
     ∨ ∃ m, thrown = Error ("Server error: " +:+ m)).
Proof.
  intros Hsave body.
  pose proof (saveCookiesToFile_run cookies prefix w h) as Hrun.
  cbv zeta in Hrun. fold body in Hrun. rewrite Hrun in Hsave. clear Hrun.
  repeat case_match; try done. injection Hsave as <- <-. split; [done|].
  match goal with |- context [finalError ?e] =>
    destruct (finalError_cases e) as [[_ ->]|[(_ & _ & ->)|(_ & _ & _ & ->)]]
  end; eauto.
Qed.

(** X12: [saveCookiesToFile] returns only after a post that the endpoint has
    acknowledged (success status, parsable body, true success flag), and
    that post is the last event; it throws only after three posts, none
    acknowledged, and what it throws is a plain Error. *)
Theorem saveCookiesToFile_outcomes cookies prefix w h :
  let body := makeCookieData cookies prefix (clockISO w h) (clockISO w h) in
  match saveCookiesToFile cookies prefix w h with
  | (inr _, h') =>
      ∃ before response result,
        h' = before ++ [EvPost body]
        ∧ fetchCookies w before body = Resolved response
        ∧ ok response = true
        ∧ json response = inr result ∧ success result = true
  | (inl thrown, h') =>
      errName thrown = "Error"
      ∧ h' = h ++ [EvPost body; EvSleep 1000; EvPost body; EvSleep 1000;
                   EvPost body]
      ∧ is_Some (attemptError (fetchCookies w h body))
      ∧ is_Some (attemptError
                   (fetchCookies w (h ++ [EvPost body; EvSleep 1000]) body))
      ∧ is_Some (attemptError
                   (fetchCookies w (h ++ [EvPost body; EvSleep 1000;
                                          EvPost body; EvSleep 1000]) body))
  end.
Proof.
  intros body. pose proof (saveCookiesToFile_run cookies prefix w h) as Hrun.
  cbv zeta in Hrun. fold body in Hrun. rewrite Hrun. clear Hrun.
  destruct (attemptError (fetchCookies w h body)) as [e1|] eqn:H1.
  2: { apply attemptError_None in H1 as (response & result & ? & ? & ? & ?).
       exists h, response, result. done. }
  destruct (attemptError (fetchCookies w (h ++ [_; _]) body)) as [e2|] eqn:H2.
  2: { apply attemptError_None in H2 as (response & result & ? & ? & ? & ?).
       exists (h ++ [EvPost body; EvSleep 1000]), response, result.
       by rewrite <- (assoc_L (++)). }
  destruct (attemptError (fetchCookies w (h ++ [_; _; _; _]) body))
    as [e3|] eqn:H3.
  2: { apply attemptError_None in H3 as (response & result & ? & ? & ? & ?).
       exists (h ++ [EvPost body; EvSleep 1000; EvPost body; EvSleep 1000]),
         response, result.
       by rewrite <- (assoc_L (++)). }
  split; [|by eauto].
  destruct (finalError_cases e3) as [[_ ->]|[(_ & _ & ->)|(_ & _ & _ & ->)]];
    done.
Qed.

Lemma try_catch_wrap {A} (body : M A) (pre : string) w h :
  try_catch body (λ caught, throw (Error (pre +:+ errMessage caught))) w h =
    match body w h with
    | (inl caught, h') => (inl (Error (pre +:+ errMessage caught)), h')
    | (inr x, h') => (inr x, h')
    end.
Proof. unfold try_catch. by destruct (body w h) as [[caught|x] h']. Qed.

(** The run of [extractAllCookies], step by step. *)
Lemma extractAllCookies_cases w h :
  extractAllCookies w h =
    if probeSucceeds (fetchStatus w h) then
      match cookiesGetAll w (h ++ [EvStatusProbe]) None with
      | inl reason =>
          (inl (Error (allPrefix +:+ errMessage reason)),
           h ++ [EvStatusProbe; EvGetAll None])
      | inr cookies =>
          match saveCookiesToFile (processCookies (dateISO w) cookies)
                  "all_cookies" w (h ++ [EvStatusProbe; EvGetAll None]) with
          | (inl thrown, h') => (inl (Error (allPrefix +:+ errMessage thrown)), h')
          | (inr _, h') =>
              (inr {| AllResult.total := length cookies;
                      AllResult.cookies := processCookies (dateISO w) cookies;
                      AllResult.timestamp := clockISO w h' |}, h')
          end
      end
    else (inl (Error (allPrefix +:+ serverNotRunning)), h ++ [EvStatusProbe]).
Proof.
  unfold extractAllCookies. rewrite try_catch_wrap.
  rewrite run_bind, checkServerAvailability_run.
  destruct (probeSucceeds (fetchStatus w h)); [|done]. cbn [negb].
  rewrite run_bind, chrome_cookies_getAll_run, <- (assoc_L (++)). cbn [app].
  destruct (cookiesGetAll w (h ++ [EvStatusProbe]) None) as [reason|cookies];
    [done|].
  rewrite run_bind. cbn [ask]. cbv iota beta. rewrite run_bind.
  destruct (saveCookiesToFile _ _ w _) as [[thrown|[]] h']; done.
Qed.

(** The run of [extractCurrentDomainCookies], step by step. *)
Lemma extractCurrentDomainCookies_cases url w h :
  extractCurrentDomainCookies url w h =
    if probeSucceeds (fetchStatus w h) then
      match urlHostname w url with
      | inl reason =>
          (inl (Error (domainPrefix +:+ errMessage reason)), h ++ [EvStatusProbe])
      | inr domain =>
          match domainCookies domain w (h ++ [EvStatusProbe]) with
          | (inl reason, h2) =>
              (inl (Error (domainPrefix +:+ errMessage reason)), h2)
          | (inr merged, h2) =>
              match saveCookiesToFile
                      (processCookies (dateISO w) (removeDuplicateCookies merged))
                      ("cookies_" +:+ domain) w h2 with
              | (inl thrown, h') =>
                  (inl (Error (domainPrefix +:+ errMessage thrown)), h')
              | (inr _, h') =>
                  (inr {| DomainResult.domain := domain;
                          DomainResult.total :=
                            length (removeDuplicateCookies merged);
                          DomainResult.cookies :=
                            processCookies (dateISO w)
                              (removeDuplicateCookies merged);
                          DomainResult.timestamp := clockISO w h' |}, h')
              end
          end
      end
    else (inl (Error (domainPrefix +:+ serverNotRunning)), h ++ [EvStatusProbe]).
Proof.
  destruct (probeSucceeds (fetchStatus w h)) eqn:Hprobe.
  2: { unfold extractCurrentDomainCookies. rewrite try_catch_wrap.
       by rewrite run_bind, checkServerAvailability_run, Hprobe. }
  destruct (urlHostname w url) as [reason|domain] eqn:Hurl.
  { unfold extractCurrentDomainCookies. rewrite try_catch_wrap.
    rewrite run_bind, checkServerAvailability_run, Hprobe. cbn [negb].
    rewrite run_bind. cbn [ask]. by rewrite run_bind, Hurl. }
  destruct (domainCookies domain w (h ++ [EvStatusProbe]))
    as [[reason|merged] h2] eqn:Hfetch.
  { unfold extractCurrentDomainCookies. rewrite try_catch_wrap.
    rewrite run_bind, checkServerAvailability_run, Hprobe. cbn [negb].
    rewrite run_bind. cbn [ask]. rewrite run_bind, Hurl. cbn [settle].
    rewrite run_ret. cbv iota beta. by rewrite run_bind, Hfetch. }
  by apply extractCurrentDomainCookies_run.
Qed.

(** X13: A successful extract-all implies that the probe succeeded and the
    store was read; the result counts and carries all cookies of the
    store, unfiltered and in order; and the run ends with a post of
    exactly these cookies that the endpoint acknowledged. *)
Theorem extractAllCookies_success w h result h' :
  extractAllCookies w h = (inr result, h') →
  probeSucceeds (fetchStatus w h) = true
  ∧ ∃ cookies,
      cookiesGetAll w (h ++ [EvStatusProbe]) None = inr cookies
      ∧ AllResult.total result = length cookies
      ∧ AllResult.cookies result = processCookies (dateISO w) cookies
      ∧ length (AllResult.cookies result) = AllResult.total result
      ∧ AllResult.timestamp result = clockISO w h'
      ∧ ∃ before body,
          h' = before ++ [EvPost body]
          ∧ envCookies body = AllResult.cookies result
          ∧ metaTotalCookies (metadata body) = AllResult.total result
          ∧ attemptError (fetchCookies w before body) = None.
Proof.
  rewrite extractAllCookies_cases.
  destruct (probeSucceeds (fetchStatus w h)); [|done]. intros Hrun.
  split; [done|].
  destruct (cookiesGetAll w (h ++ [EvStatusProbe]) None) as [?|cookies]; [done|].
  destruct (saveCookiesToFile _ _ w _) as [[?|u] h''] eqn:Hsave; [done|].
  injection Hrun as <- <-. exists cookies. cbn.
  assert (length (processCookies (dateISO w) cookies) = length cookies) as Hlen
    by apply length_fmap.
  repeat (split; [done|]).
  destruct (saveCookiesToFile_returned _ _ _ _ _ _ Hsave) as (before & -> & Hack).
  eexists before, _. repeat split; [done|exact Hack].
Qed.

Lemma extractAllCookies_success_witness :
  ∃ result h',
    extractAllCookies onlineWorld [] = (inr result, h')
    ∧ AllResult.total result = 2%nat
    ∧ length (AllResult.cookies result) = AllResult.total result.
Proof.
  destruct (extractAllCookies onlineWorld []) as [[thrown|result] h'] eqn:H;
    [vm_compute in H; discriminate|].
  exists result, h'. split; [reflexivity|].
  destruct (extractAllCookies_success _ _ _ _ H)
    as (_ & cookies & Hread & Htotal & _ & Hlen & _).
  split; [|exact Hlen]. rewrite Htotal. injection Hread as <-. reflexivity.
Defined.

(** X14: When the dates of the cookies in the store are dates [Date] can
    hold, every failure of extract-all is a plain Error whose message
    starts with the fixed prefix, and it is one of three: the server is
    not running (the probe is the only event), the store could not be read
    (probe and read, nothing posted), or the delivery failed after three
    posts with the timeout, the connection or a server-error message. *)
Theorem extractAllCookies_failures w h thrown h' :
  (∀ cookies,
     cookiesGetAll w (h ++ [EvStatusProbe]) None = inr cookies →
     Forall (λ cookie, validExpiration cookie = true) cookies) →
  extractAllCookies w h = (inl thrown, h') →
  ∃ m,
    thrown = Error (allPrefix +:+ m)
    ∧ ((m = serverNotRunning ∧ probeSucceeds (fetchStatus w h) = false
        ∧ h' = h ++ [EvStatusProbe])
       ∨ (∃ reason,
            cookiesGetAll w (h ++ [EvStatusProbe]) None = inl reason
            ∧ m = errMessage reason
            ∧ h' = h ++ [EvStatusProbe; EvGetAll None])
       ∨ ((m = serverTimeout ∨ m = cannotConnect
           ∨ ∃ m', m = "Server error: " +:+ m')
          ∧ ∃ cookies body,
              cookiesGetAll w (h ++ [EvStatusProbe]) None = inr cookies
              ∧ envCookies body = processCookies (dateISO w) cookies
              ∧ h' = h ++ [EvStatusProbe; EvGetAll None; EvPost body; EvSleep 1000;
                           EvPost body; EvSleep 1000; EvPost body])).
Proof.
  intros _. rewrite extractAllCookies_cases.
  destruct (probeSucceeds (fetchStatus w h)) eqn:Hprobe.
  2: { intros [= <- <-]. eexists. split; [done|]. by left. }
  destruct (cookiesGetAll w (h ++ [EvStatusProbe]) None) as [reason|cookies].
  { intros [= <- <-]. eexists. split; [done|]. right; left. by exists reason. }
  destruct (saveCookiesToFile _ _ w _) as [[e|u] h''] eqn:Hsave; [|done].
  intros [= <- <-]. eexists. split; [done|]. right; right.
  destruct (saveCookiesToFile_thrown _ _ _ _ _ _ Hsave) as [-> Hmsg].
  split.
  - destruct Hmsg as [->|[->|[m' ->]]]; eauto.
  - exists cookies. eexists. split; [done|].
    split; [|by rewrite <- (assoc_L (++))]. done.
Qed.

Lemma extractAllCookies_failures_witness :
  (∀ cookies,
     cookiesGetAll stalledWorld ([] ++ [EvStatusProbe]) None = inr cookies →
     Forall (λ cookie, validExpiration cookie = true) cookies)
  ∧ ∃ m h', extractAllCookies stalledWorld []
            = (inl (Error (allPrefix +:+ m)), h')
          ∧ m = serverTimeout ∧ countPosts h' = 3%nat.
Proof.
  assert (∀ cookies,
            cookiesGetAll stalledWorld ([] ++ [EvStatusProbe]) None = inr cookies →
            Forall (λ cookie, validExpiration cookie = true) cookies) as Hdates.
  { intros cookies [= <-]. repeat constructor. }
  split; [exact Hdates|].
  destruct (extractAllCookies stalledWorld []) as [[thrown|result] h'] eqn:H;
    [|vm_compute in H; discriminate H].
  destruct (extractAllCookies_failures _ _ _ _ Hdates H) as (m & Hm & _).
  exists serverTimeout, h'.
  vm_compute in H. injection H as <- <-.
  split; [reflexivity|]. split; reflexivity.
Defined.

(** The store refuses to be read: nothing is posted. *)
Example extractAllCookies_store_refused :
  extractAllCookies lockedStoreWorld []
  = (inl (Error (allPrefix +:+ "No cookie permission")),
     [EvStatusProbe; EvGetAll None]).
Proof. reflexivity. Qed.

Lemma processedKey_processCookies (toISO : Q → string) (raw : list Cookie.t) :
  processedKey <$> processCookies toISO raw = cookieKey <$> raw.
Proof.
  unfold processCookies. rewrite <- list_fmap_compose.
  by apply list_fmap_ext.
Qed.

Lemma domainCookies_cases domain w h :
  let parent := join "." (drop 1 (split dot domain)) in
  let h1 := h ++ [EvGetAll (Some domain)] in
  domainCookies domain w h =
    match cookiesGetAll w h (Some domain) with
    | inl reason => (inl reason, h1)
    | inr exact =>
        if decide (2 < length (split dot domain))%nat then
          (match cookiesGetAll w h1 (Some parent) with
           | inl reason => inl reason
           | inr inherited => inr (exact ++ inherited)
           end, h ++ [EvGetAll (Some domain); EvGetAll (Some parent)])
        else (inr exact, h1)
    end.
Proof.
  intros parent h1. unfold domainCookies.
  rewrite run_bind, chrome_cookies_getAll_run. fold h1.
  destruct (cookiesGetAll w h (Some domain)) as [reason|exact]; [done|].
  cbv zeta. fold parent. case_decide; [|done].
  rewrite run_bind, chrome_cookies_getAll_run. unfold h1.
  rewrite <- (assoc_L (++)). cbn [app].
  by destruct (cookiesGetAll w _ (Some parent)).
Qed.

(** X15: A successful domain extraction implies that the probe succeeded, the
    URL gave the reported host name and the store was read; the reported
    cookies are the deduplicated ones, have pairwise distinct keys, and
    their number is the reported total, which is at most the number of
    cookies read; the run ends with an acknowledged post of exactly these
    cookies. *)
Theorem extractCurrentDomainCookies_success url w h result h' :
  extractCurrentDomainCookies url w h = (inr result, h') →
  probeSucceeds (fetchStatus w h) = true
  ∧ urlHostname w url = inr (DomainResult.domain result)
  ∧ ∃ merged h2,
      domainCookies (DomainResult.domain result) w (h ++ [EvStatusProbe])
        = (inr merged, h2)
      ∧ DomainResult.cookies result
        = processCookies (dateISO w) (removeDuplicateCookies merged)
      ∧ DomainResult.total result = length (DomainResult.cookies result)
      ∧ (DomainResult.total result ≤ length merged)%nat
      ∧ NoDup (processedKey <$> DomainResult.cookies result)
      ∧ ∃ before body,
          h' = before ++ [EvPost body]
          ∧ envCookies body = DomainResult.cookies result
          ∧ attemptError (fetchCookies w before body) = None.
Proof.
  rewrite extractCurrentDomainCookies_cases.
  destruct (probeSucceeds (fetchStatus w h)); [|done].
  destruct (urlHostname w url) as [?|domain]; [done|].
  destruct (domainCookies domain w _) as [[?|merged] h2] eqn:Hfetch; [done|].
  destruct (saveCookiesToFile _ _ w h2) as [[?|u] h''] eqn:Hsave; [done|].
  intros [= <- <-]. cbn. split; [done|]. split; [done|].
  exists merged, h2. split; [exact Hfetch|]. split; [done|].
  split; [unfold processCookies; by rewrite length_fmap|].
  split; [apply sublist_length, filterUnseen_sublist|].
  split; [rewrite processedKey_processCookies; apply filterUnseen_NoDup|].
  destruct (saveCookiesToFile_returned _ _ _ _ _ _ Hsave) as (before & -> & Hack).
  eexists before, _. split; [reflexivity|]. split; [reflexivity|]. exact Hack.
Qed.

Lemma extractCurrentDomainCookies_success_witness :
  ∃ result h',
    extractCurrentDomainCookies "https://a.b.example.com/cart" onlineWorld []
      = (inr result, h')
    ∧ DomainResult.domain result = "a.b.example.com"
    ∧ NoDup (processedKey <$> DomainResult.cookies result).
Proof.
  destruct (extractCurrentDomainCookies "https://a.b.example.com/cart"
              onlineWorld []) as [[thrown|result] h'] eqn:H;
    [vm_compute in H; discriminate|].
  exists result, h'. split; [reflexivity|].
  destruct (extractCurrentDomainCookies_success _ _ _ _ _ H)
    as (_ & Hurl & merged & h2 & _ & _ & _ & _ & Hnd & _).
  split; [|exact Hnd]. injection Hurl as <-. reflexivity.
Defined.

(** X16: When the dates of the cookies that are kept after deduplication
    are dates [Date] can hold, every failure of a domain extraction is a
    plain Error whose message starts with the fixed prefix, and it is one
    of four: the server is not running, or the URL constructor threw (the
    probe is the only event in both), or a read of the store failed (probe
    and one or two reads, nothing posted), or the delivery failed after
    three posts. *)
Theorem extractCurrentDomainCookies_failures url w h thrown h' :
  (∀ domain merged h2,
     urlHostname w url = inr domain →
     domainCookies domain w (h ++ [EvStatusProbe]) = (inr merged, h2) →
     Forall (λ cookie, validExpiration cookie = true)
            (removeDuplicateCookies merged)) →
  extractCurrentDomainCookies url w h = (inl thrown, h') →
  ∃ m,
    thrown = Error (domainPrefix +:+ m)
    ∧ ((m = serverNotRunning ∧ probeSucceeds (fetchStatus w h) = false
        ∧ h' = h ++ [EvStatusProbe])
       ∨ (∃ reason,
            urlHostname w url = inl reason ∧ m = errMessage reason
            ∧ h' = h ++ [EvStatusProbe])
       ∨ (∃ domain reason,
            urlHostname w url = inr domain
            ∧ domainCookies domain w (h ++ [EvStatusProbe]) = (inl reason, h')
            ∧ m = errMessage reason
            ∧ (h' = h ++ [EvStatusProbe; EvGetAll (Some domain)]
               ∨ h' = h ++ [EvStatusProbe; EvGetAll (Some domain);
                            EvGetAll (Some (join "." (drop 1 (split dot domain))))]))
       ∨ ((m = serverTimeout ∨ m = cannotConnect
           ∨ ∃ m', m = "Server error: " +:+ m')
          ∧ ∃ before body,
              h' = before ++ [EvPost body; EvSleep 1000; EvPost body;
                              EvSleep 1000; EvPost body])).
Proof.
  intros _. rewrite extractCurrentDomainCookies_cases.
  destruct (probeSucceeds (fetchStatus w h)) eqn:Hprobe.
  2: { intros [= <- <-]. eexists. split; [done|]. by left. }
  destruct (urlHostname w url) as [reason|domain] eqn:Hurl.
  { intros [= <- <-]. eexists. split; [done|]. right; left. by exists reason. }
  destruct (domainCookies domain w _) as [[reason|merged] h2] eqn:Hfetch.
  { intros [= <- <-]. eexists. split; [done|]. right; right; left.
    exists domain, reason. split; [done|]. split; [done|]. split; [done|].
    pose proof (domainCookies_cases domain w (h ++ [EvStatusProbe])) as Hc.
    cbv zeta in Hc. rewrite Hfetch in Hc. rewrite <- !(assoc_L (++)) in Hc.
    cbn [app] in Hc. repeat case_match; simplify_eq; auto. }
  destruct (saveCookiesToFile _ _ w h2) as [[e|u] h''] eqn:Hsave; [|done].
  intros [= <- <-]. eexists. split; [done|]. right; right; right.
  destruct (saveCookiesToFile_thrown _ _ _ _ _ _ Hsave) as [-> Hmsg].
  split.
  - destruct Hmsg as [->|[->|[m' ->]]]; eauto.
  - by eexists h2, _.
Qed.

Lemma extractCurrentDomainCookies_failures_witness :
  let url := "https://a.b.example.com/cart" in
  (∀ domain merged h2,
     urlHostname stalledWorld url = inr domain →
     domainCookies domain stalledWorld ([] ++ [EvStatusProbe]) = (inr merged, h2) →
     Forall (λ cookie, validExpiration cookie = true)
            (removeDuplicateCookies merged))
  ∧ ∃ m h', extractCurrentDomainCookies url stalledWorld []
            = (inl (Error (domainPrefix +:+ m)), h')
          ∧ m = serverTimeout ∧ countPosts h' = 3%nat.
Proof.
  intros url.
  assert (∀ domain merged h2,
     urlHostname stalledWorld url = inr domain →
     domainCookies domain stalledWorld ([] ++ [EvStatusProbe]) = (inr merged, h2) →
     Forall (λ cookie, validExpiration cookie = true)
            (removeDuplicateCookies merged)) as Hdates.
  { intros domain merged h2 [= <-] Hfetch. vm_compute in Hfetch.
    injection Hfetch as <- <-. repeat constructor. }
  split; [exact Hdates|].
  destruct (extractCurrentDomainCookies url stalledWorld [])
    as [[thrown|result] h'] eqn:H; [|vm_compute in H; discriminate H].
  destruct (extractCurrentDomainCookies_failures _ _ _ _ _ Hdates H)
    as (m & Hm & _).
  exists serverTimeout, h'.
  vm_compute in H. injection H as <- <-.
  split; [reflexivity|]. split; reflexivity.
Defined.

(** An address typed without its scheme is refused by the URL
    constructor: the probe is the only event. *)
Example extractCurrentDomainCookies_no_scheme :
  extractCurrentDomainCookies "a.b.example.com/cart" schemeWorld []
  = (inl (Error (domainPrefix +:+ "Invalid URL")), [EvStatusProbe]).
Proof. reflexivity. Qed.
End Outcomes.

(** ** Message handling *)

Section Messages.
Implicit Types (w : World) (h : list Event) (message : Message.t).

Lemma try_catch_reply (body : M Reply) w h :
  try_catch body (λ caught, mret (ReplyFailure (errMessage caught))) w h =
    match body w h with
    | (inl caught, h') => (inr (ReplyFailure (errMessage caught)), h')
    | (inr reply, h') => (inr reply, h')
    end.
Proof. unfold try_catch. by destruct (body w h) as [[caught|reply] h']. Qed.

Lemma run_bind_ret {A B} (m : M A) (f : A → B) w h :
  (m ≫= λ x, mret (f x)) w h =
    match m w h with
    | (inl e, h') => (inl e, h')
    | (inr x, h') => (inr (f x), h')
    end.
Proof. rewrite run_bind. by destruct (m w h) as [[e|x] h']. Qed.

(** X17: [handleMessage] never throws: every message gets a reply. A reply
    with data comes from the matching method having returned that data;
    openInTab is answered without an event; an unknown action is answered
    "Unknown action" without an event; and a failure reply carries the
    message of the error that the called method threw. *)
Theorem handleMessage_replies message w h :
  ∃ reply h',
    handleMessage message w h = (inr reply, h')
    ∧ match reply with
      | ReplyAll data =>
          Message.action message = "extractAllCookies"
          ∧ extractAllCookies w h = (inr data, h')
      | ReplyDomain data =>
          Message.action message = "extractCurrentDomain"
          ∧ extractCurrentDomainCookies (Message.url message) w h = (inr data, h')
      | ReplyStats data =>
          Message.action message = "getCookieStats"
          ∧ getCookieStatistics w h = (inr data, h')
      | ReplyDone => Message.action message = "openInTab" ∧ h' = h
      | ReplyFailure error =>
          ((Message.action message ∉
              ["extractAllCookies"; "extractCurrentDomain"; "getCookieStats";
               "openInTab"])
           ∧ error = "Unknown action" ∧ h' = h)
          ∨ (∃ thrown,
               error = errMessage thrown
               ∧ ((Message.action message = "extractAllCookies"
                   ∧ extractAllCookies w h = (inl thrown, h'))
                  ∨ (Message.action message = "extractCurrentDomain"
                     ∧ extractCurrentDomainCookies (Message.url message) w h
                       = (inl thrown, h'))
                  ∨ (Message.action message = "getCookieStats"
                     ∧ getCookieStatistics w h = (inl thrown, h'))))
      end.
Proof.
  unfold handleMessage. rewrite try_catch_reply.
  destruct (decide (Message.action message = "extractAllCookies")) as [Ha|Ha].
  { rewrite run_bind_ret.
    destruct (extractAllCookies w h) as [[thrown|data] h'];
      eexists _, _; (split; [done|]); [|done].
    right. exists thrown. split; [done|]. by left. }
  destruct (decide (Message.action message = "extractCurrentDomain")) as [Hd|Hd].
  { rewrite run_bind_ret.
    destruct (extractCurrentDomainCookies _ w h) as [[thrown|data] h'];
      eexists _, _; (split; [done|]); [|done].
    right. exists thrown. split; [done|]. right. by left. }
  destruct (decide (Message.action message = "getCookieStats")) as [Hs|Hs].
  { rewrite run_bind_ret.
    destruct (getCookieStatistics w h) as [[thrown|data] h'];
      eexists _, _; (split; [done|]); [|done].
    right. exists thrown. split; [done|]. right. by right. }
  destruct (decide (Message.action message = "openInTab")) as [Ho|Ho].
  { by eexists _, _. }
  eexists _, _. split; [done|]. left. split; [|done].
  rewrite !elem_of_cons, elem_of_nil. tauto.
Qed.

(** X18: With the server down both extraction messages are answered with the
    "server is not running" failure after the probe alone, while a
    statistics message is still answered from the store, without any
    probe or post. *)
Theorem handleMessage_server_down url w h :
  probeSucceeds (fetchStatus w h) = false →
  handleMessage (Message.mk "extractAllCookies" url) w h
    = (inr (ReplyFailure (allPrefix +:+ serverNotRunning)), h ++ [EvStatusProbe])
  ∧ handleMessage (Message.mk "extractCurrentDomain" url) w h
    = (inr (ReplyFailure (domainPrefix +:+ serverNotRunning)),
       h ++ [EvStatusProbe])
  ∧ (handleMessage (Message.mk "getCookieStats" url) w h).2
    = h ++ [EvGetAll None]
  ∧ ∀ cookies,
      cookiesGetAll w h None = inr cookies →
      ∃ stats,
        (handleMessage (Message.mk "getCookieStats" url) w h).1
          = inr (ReplyStats stats)
        ∧ Stats.total stats = length cookies.
Proof.
  intros Hprobe. unfold handleMessage. rewrite !try_catch_reply. cbn [decide].
  rewrite !decide_True by done. rewrite !run_bind_ret.
  rewrite extractAllCookies_cases, Hprobe.
  split; [done|].
  rewrite (decide_False (P := "extractCurrentDomain" = "extractAllCookies"))
    by done.
  rewrite decide_True by done. rewrite run_bind_ret.
  rewrite extractCurrentDomainCookies_cases, Hprobe. split; [done|].
  rewrite !(decide_False (P := "getCookieStats" = _)) by done.
  rewrite !decide_True by done. rewrite !run_bind_ret.
  rewrite getCookieStatistics_run.
  split; [by destruct (cookiesGetAll w h None)|].
  intros cookies ->. by eexists.
Qed.

Lemma handleMessage_server_down_witness :
  probeSucceeds (fetchStatus offlineWorld []) = false
  ∧ handleMessage (Message.mk "extractAllCookies" "") offlineWorld []
    = (inr (ReplyFailure (allPrefix +:+ serverNotRunning)), [EvStatusProbe]).
Proof.
  assert (probeSucceeds (fetchStatus offlineWorld []) = false) as H
    by reflexivity.
  split; [exact H|].
  exact (proj1 (handleMessage_server_down "" offlineWorld [] H)).
Defined.
End Messages.

(** ** Labels of the parent domain and the file name *)

Section LabelsAndNames.
Implicit Types (s t w : string) (ws : list string) (sep c : ascii).

Lemma split_free sep w : occurs sep w = false → split sep w = [w].
Proof.
  induction w as [|c w IH]; simpl; [done|].
  intros [Hc Hw]%orb_false_elim. apply bool_decide_eq_false_1 in Hc.
  by rewrite decide_False, (IH Hw).
Qed.

Lemma split_app_sep sep w t :
  occurs sep w = false → split sep (w +:+ String sep t) = w :: split sep t.
Proof.
  induction w as [|c w IH].
  - intros _. rewrite append_nil. simpl. by rewrite decide_True.
  - intros H. simpl in H. apply orb_false_elim in H as [Hc Hw].
    apply bool_decide_eq_false_1 in Hc.
    rewrite append_cons. simpl. rewrite decide_False by done.
    by rewrite (IH Hw).
Qed.

Lemma split_parts_free sep s : Forall (λ w, occurs sep w = false) (split sep s).
Proof.
  induction s as [|c s IH]; simpl; [by repeat constructor|].
  case_decide as Hc; [by constructor|].
  destruct (split sep s) as [|w ws].
  { constructor; [simpl; by rewrite bool_decide_eq_false_2|constructor]. }
  apply Forall_cons in IH as [Hw Hws]. constructor; [|done].
  simpl. by rewrite Hw, bool_decide_eq_false_2.
Qed.

(** Joining separator-free parts and splitting again gives the parts. *)
Lemma split_join sep ws :
  ws ≠ [] → Forall (λ w, occurs sep w = false) ws →
  split sep (join (String sep "") ws) = ws.
Proof.
  induction ws as [|w ws IH]; [done|]. intros _ [Hw Hws]%Forall_cons.
  destruct ws as [|w' ws]; [by apply split_free|].
  rewrite join_cons_cons.
  change (w +:+ String sep "" +:+ join (String sep "") (w' :: ws))
    with (w +:+ String sep (join (String sep "") (w' :: ws))).
  rewrite split_app_sep by done. f_equal. by apply IH.
Qed.

(** X19: When the parent domain is read, it has exactly the dot-separated
    parts of the host name without the first, empty parts included: one
    part fewer, and still at least two.  When no part of the host name is
    empty (no leading, trailing or doubled dot), no part of the parent is
    empty either, so the parent then has at least two labels.  Parts are
    counted as [split] gives them: a host name that ends in a dot has an
    empty last part, see [parent_domain_trailing_dot]. *)
Theorem parent_domain_labels (domain : string) :
  let labels := split dot domain in
  let parent := join "." (drop 1 labels) in
  (2 < length labels)%nat →
  split dot parent = drop 1 labels
  ∧ length (split dot parent) = (length labels - 1)%nat
  ∧ (2 ≤ length (split dot parent))%nat
  ∧ (Forall (λ label, label ≠ "") labels →
     Forall (λ label, label ≠ "") (split dot parent)
     ∧ ∃ first second rest, split dot parent = first :: second :: rest
                            ∧ first ≠ "" ∧ second ≠ "").
Proof.
  intros labels parent Hlen.
  assert (split dot parent = drop 1 labels) as Hsplit.
  { apply (split_join dot).
    - intros Hnil. apply (f_equal length) in Hnil.
      rewrite length_drop in Hnil. simpl in Hnil. lia.
    - apply Forall_drop, split_parts_free. }
  rewrite Hsplit, length_drop. split; [done|]. split; [lia|]. split; [lia|].
  intros Hfull. split; [by apply Forall_drop|].
  destruct labels as [|l0 [|l1 [|l2 rest]]]; simpl in Hlen; try lia.
  exists l1, l2, rest.
  apply Forall_cons in Hfull as [_ Hfull].
  apply Forall_cons in Hfull as [H1 Hfull].
  apply Forall_cons in Hfull as [H2 _]. done.
Qed.

Lemma parent_domain_labels_witness :
  (2 < length (split dot "a.b.example.com"))%nat
  ∧ split dot (join "." (drop 1 (split dot "a.b.example.com")))
    = ["b"; "example"; "com"].
Proof.
  assert (2 < length (split dot "a.b.example.com"))%nat as H
    by (vm_compute; lia).
  split; [exact H|].
  exact (proj1 (parent_domain_labels "a.b.example.com" H)).
Defined.

(** A host name written with a trailing dot has an empty last part: the
    two labels of [example.com.] count as three parts, and the parent
    that is read is the single label [com] followed by a dot. *)
Example parent_domain_trailing_dot :
  split dot "example.com." = ["example"; "com"; ""]
  ∧ join "." (drop 1 (split dot "example.com.")) = "com.".
Proof. split; reflexivity. Qed.

Lemma replaceColonDot_spec s :
  String.length (replaceColonDot s) = String.length s
  ∧ occurs ":" (replaceColonDot s) = false
  ∧ occurs "." (replaceColonDot s) = false
  ∧ (occurs ":" s = false → occurs "." s = false → replaceColonDot s = s).
Proof.
  induction s as [|c s (IH1 & IH2 & IH3 & IH4)]; [done|]. simpl.
  rewrite IH1. split; [done|].
  case_decide as Hc.
  - simpl. rewrite IH2, IH3. split; [done|]. split; [done|].
    intros H5 H6. destruct Hc as [-> | ->]; simpl in *; discriminate.
  - assert (c ≠ ":"%char ∧ c ≠ "."%char) as [Hc1 Hc2] by tauto.
    rewrite IH2, IH3, !bool_decide_eq_false_2 by done. simpl.
    split; [done|]. split; [done|]. intros H5 H6. by rewrite IH4.
Qed.

(** Position by position: a colon or a dot becomes a dash, any other
    character stays where it is. *)
Lemma replaceColonDot_get s i c :
  String.get i s = Some c →
  String.get i (replaceColonDot s)
  = Some (if decide (c = ":"%char ∨ c = "."%char) then "-"%char else c).
Proof.
  revert i. induction s as [|c' s IH]; intros i Hget; [done|].
  destruct i as [|i]; simpl in *.
  - by injection Hget as ->.
  - by apply IH.
Qed.

(** X20: The envelope counts its own cookies, and its file name is the prefix
    as given, an underscore, the rewritten clock string and the extension.
    The rewritten clock string has the length of the clock string and, at
    every position, a dash where the clock string has a colon or a dot and
    the character of the clock string itself anywhere else; so it has no
    colon and no dot, and a clock string without them is not changed.
    Only the clock string is rewritten, the prefix is not. *)
Theorem makeCookieData_envelope cookies prefix extractedAt stamp :
  let body := makeCookieData cookies prefix extractedAt stamp in
  metaTotalCookies (metadata body) = length (envCookies body)
  ∧ Summary.totalCookies (summary body) = length (envCookies body)
  ∧ ∃ t, filename body = prefix +:+ "_" +:+ t +:+ ".json"
         ∧ String.length t = String.length stamp
         ∧ (∀ i c, String.get i stamp = Some c →
                   c = ":"%char ∨ c = "."%char →
                   String.get i t = Some "-"%char)
         ∧ (∀ i c, String.get i stamp = Some c →
                   c ≠ ":"%char → c ≠ "."%char →
                   String.get i t = Some c)
         ∧ occurs ":" t = false ∧ occurs "." t = false
         ∧ (occurs ":" stamp = false → occurs "." stamp = false → t = stamp)
         ∧ String.length (filename body)
           = (String.length prefix + String.length stamp + 6)%nat.
Proof.
  cbv zeta. split; [done|]. split; [done|].
  exists (replaceColonDot stamp).
  destruct (replaceColonDot_spec stamp) as (H1 & H2 & H3 & H4).
  split; [done|]. split; [done|]. split.
  { intros i c Hget Hc. rewrite (replaceColonDot_get _ _ _ Hget).
    by rewrite decide_True. }
  split.
  { intros i c Hget Hc1 Hc2. rewrite (replaceColonDot_get _ _ _ Hget).
    rewrite decide_False; [done|tauto]. }
  repeat (split; [done|]). cbn [filename makeCookieData].
  rewrite !String_length_append, H1. simpl. lia.
Qed.

(** The file name of an extraction made at 10 o'clock sharp. *)
Example makeCookieData_filename :
  filename (makeCookieData [] "cookies_a.b.example.com"
              "2024-05-01T10:00:00.000Z" "2024-05-01T10:00:00.000Z")
  = "cookies_a.b.example.com_2024-05-01T10-00-00-000Z.json".
Proof. reflexivity. Qed.
End LabelsAndNames.

(** ** The content script: reading [document.cookie] *)

Section DocumentCookie.
Implicit Types (s t n v : string) (c : ascii) (page : Page).
Implicit Types (entries : list (string * string)) (acc : list DocCookie.t).

Lemma noneOf_app bad s t :
  noneOf bad (s +:+ t) = noneOf bad s && noneOf bad t.
Proof.
  induction s as [|c s IH]; [done|]. rewrite append_cons. simpl.
  by rewrite IH, andb_assoc.
Qed.

Lemma noneOf_weaken (bad bad' : ascii → bool) s :
  (∀ c, bad' c = true → bad c = true) →
  noneOf bad s = true → noneOf bad' s = true.
Proof.
  intros Hb. induction s as [|c s IH]; [done|]. simpl.
  intros [Hc Hs]%andb_true_iff. rewrite (IH Hs), andb_true_r.
  destruct (bad' c) eqn:Hc'; [|done]. by rewrite (Hb c Hc') in Hc.
Qed.

Lemma noneOf_occurs c s :
  noneOf (λ c', bool_decide (c' = c)) s = true → occurs c s = false.
Proof.
  induction s as [|c' s IH]; [done|]. simpl.
  intros [Hc Hs]%andb_true_iff. rewrite (IH Hs), orb_false_r.
  by apply negb_true_iff.
Qed.

Lemma trimEnd_clean s : noneOf isWhiteSpace s = true → trimEnd s = s.
Proof.
  induction s as [|c s IH]; [done|]. simpl.
  intros [Hc Hs]%andb_true_iff. rewrite (IH Hs).
  apply negb_true_iff in Hc. rewrite Hc. by destruct s.
Qed.

Lemma trimStart_clean s : noneOf isWhiteSpace s = true → trimStart s = s.
Proof.
  destruct s as [|c s]; [done|]. simpl.
  intros [Hc _]%andb_true_iff. apply negb_true_iff in Hc. by rewrite Hc.
Qed.

Lemma trim_clean s : noneOf isWhiteSpace s = true → trim s = s.
Proof.
  intros Hs. unfold trim. by rewrite (trimStart_clean s Hs), trimEnd_clean.
Qed.

Lemma trim_space_clean s :
  noneOf isWhiteSpace s = true → trim (" " +:+ s) = s.
Proof. intros Hs. unfold trim. simpl. fold (trim s). by apply trim_clean. Qed.

Lemma split_nonempty_head c s : ∃ w, split c s !! 0%nat = Some w.
Proof. destruct (split_nonempty c s) as (w & ws & ->). by exists w. Qed.

Lemma append_assoc s t u : (s +:+ t) +:+ u = s +:+ (t +:+ u).
Proof.
  induction s as [|c s IH]; [done|]. by rewrite !append_cons, IH.
Qed.

Lemma cleanEntry_item (e : string * string) :
  cleanEntry e →
  e.1 ≠ ""
  ∧ occurs "=" e.1 = false
  ∧ noneOf isWhiteSpace e.1 = true
  ∧ noneOf isWhiteSpace (e.1 +:+ "=" +:+ e.2) = true
  ∧ occurs ";" (e.1 +:+ "=" +:+ e.2) = false.
Proof.
  intros [[Hne Hn] Hv]. unfold cleanValue in Hv.
  assert (noneOf isWhiteSpace e.1 = true) as Hn1.
  { revert Hn. apply noneOf_weaken. intros c ->. by rewrite orb_true_r. }
  assert (noneOf (λ c, bool_decide (c = "="%char)) e.1 = true) as Hn2.
  { revert Hn. apply noneOf_weaken. intros c ->.
    by rewrite orb_true_r. }
  assert (noneOf (λ c, bool_decide (c = ";"%char)) e.1 = true) as Hn3.
  { revert Hn. apply noneOf_weaken. by intros c ->. }
  assert (noneOf isWhiteSpace e.2 = true) as Hv1.
  { revert Hv. apply noneOf_weaken. intros c ->. by rewrite orb_true_r. }
  assert (noneOf (λ c, bool_decide (c = ";"%char)) e.2 = true) as Hv2.
  { revert Hv. apply noneOf_weaken. by intros c ->. }
  split; [done|]. split; [by apply noneOf_occurs|]. split; [done|].
  split.
  - rewrite !noneOf_app, Hn1, Hv1. done.
  - apply noneOf_occurs. rewrite !noneOf_app, Hn3, Hv2. done.
Qed.

(** The callback on one serialised entry, with or without the space that
    follows a semicolon. *)
Lemma collectPair_item page acc (lead : string) (e : string * string) :
  cleanEntry e → lead = "" ∨ lead = " " →
  collectPair page acc (lead +:+ (e.1 +:+ "=" +:+ e.2)) =
    match decodeURIComponent page (beforeEquals e.2) with
    | inl reason => inl reason
    | inr decoded =>
        inr (acc ++ [DocCookie.mk e.1 decoded true "document.cookie"])
    end.
Proof.
  intros He Hlead.
  destruct (cleanEntry_item e He) as (Hne & Heq & Hws & Hitem & _).
  unfold collectPair.
  assert (trim (lead +:+ (e.1 +:+ "=" +:+ e.2)) = e.1 +:+ "=" +:+ e.2) as ->.
  { destruct Hlead as [-> | ->];
      [rewrite append_nil; by apply trim_clean|by apply trim_space_clean]. }
  change (e.1 +:+ "=" +:+ e.2) with (e.1 +:+ String "=" e.2).
  rewrite split_app_sep by done. cbv zeta. cbn [lookup list_lookup default].
  destruct (split_nonempty "=" e.2) as (w & ws & Hsplit).
  unfold beforeEquals. rewrite Hsplit. cbn [lookup list_lookup default].
  rewrite bool_decide_eq_true_2 by done. unfold id.
  by rewrite (trim_clean _ Hws).
Qed.

Lemma split_lead_serialise (lead : string) (e : string * string) entries :
  Forall cleanEntry (e :: entries) → lead = "" ∨ lead = " " →
  split ";" (lead +:+ serialise (e :: entries)) =
    (lead +:+ (e.1 +:+ "=" +:+ e.2))
    :: match entries with
       | [] => []
       | _ :: _ => split ";" (" " +:+ serialise entries)
       end.
Proof.
  intros [He Hrest]%Forall_cons Hlead.
  destruct (cleanEntry_item e He) as (_ & _ & _ & _ & Hsemi).
  assert (occurs ";" (lead +:+ (e.1 +:+ "=" +:+ e.2)) = false) as Hfree.
  { destruct Hlead as [-> | ->]; [by rewrite append_nil|].
    rewrite append_cons, append_nil. simpl. by rewrite Hsemi. }
  destruct entries as [|e' entries].
  - unfold serialise. csimpl. by apply split_free.
  - unfold serialise. rewrite fmap_cons, fmap_cons, join_cons_cons.
    change ("; " +:+ ?x) with (String ";" (" " +:+ x)).
    rewrite <- append_assoc, split_app_sep by done. done.
Qed.

(** On serialised clean entries the collector does what
    [collectEntries] says. *)
Lemma collectPairs_serialise page acc (lead : string) entries :
  entries ≠ [] → Forall cleanEntry entries → lead = "" ∨ lead = " " →
  collectPairs page acc (split ";" (lead +:+ serialise entries)) =
    collectEntries page acc entries.
Proof.
  revert acc lead. induction entries as [|e entries IH]; [done|].
  intros acc lead _ Hclean Hlead.
  rewrite split_lead_serialise by done. cbn [collectPairs collectEntries].
  apply Forall_cons in Hclean as [He Hrest].
  rewrite collectPair_item by done.
  destruct (decodeURIComponent page (beforeEquals e.2)) as [reason|decoded];
    [done|].
  destruct entries as [|e' entries]; [done|].
  apply IH; [done|done|by right].
Qed.

Lemma serialise_nonempty (e : string * string) entries :
  e.1 ≠ "" → serialise (e :: entries) ≠ "".
Proof.
  intros Hne.
  assert (∃ t, serialise (e :: entries) = e.1 +:+ t) as [t ->].
  { unfold serialise. destruct entries as [|e' entries].
    - by eexists.
    - rewrite !fmap_cons, join_cons_cons, append_assoc. by eexists. }
  destruct e.1 as [|c n]; [done|]. by rewrite append_cons.
Qed.

Lemma getDocumentCookies_serialise page entries :
  Forall cleanEntry entries →
  documentCookie page = inr (serialise entries) →
  getDocumentCookies page =
    match collectEntries page [] entries with
    | inr cookies =>
        DocumentData (href page) (hostname page) (protocol page) cookies
          (pageClockISO page) (navigatorUserAgent page)
          (navigatorCookieEnabled page) (isThirdPartyContext page)
    | inl reason =>
        DocumentError (errMessage reason) (href page) (pageClockISO page)
    end.
Proof.
  intros Hclean Hdoc. unfold getDocumentCookies. rewrite Hdoc.
  destruct entries as [|e entries]; [done|].
  rewrite bool_decide_eq_true_2.
  2: { apply serialise_nonempty.
       apply Forall_cons in Hclean as [[[Hne _] _] _]. done. }
  rewrite <- (append_nil (serialise (e :: entries))).
  rewrite collectPairs_serialise by (done || by left). done.
Qed.

Lemma collectEntries_all_decoded page acc entries :
  (∀ e, e ∈ entries →
        ∃ d, decodeURIComponent page (beforeEquals e.2) = inr d) →
  ∃ cookies,
    collectEntries page acc entries = inr (acc ++ cookies)
    ∧ Forall2
        (λ e cookie,
           DocCookie.name cookie = e.1
           ∧ decodeURIComponent page (beforeEquals e.2)
             = inr (DocCookie.value cookie)
           ∧ DocCookie.accessible cookie = true)
        entries cookies.
Proof.
  revert acc. induction entries as [|e entries IH]; intros acc Hdec.
  - exists []. by rewrite (right_id_L [] (++)).
  - destruct (Hdec e) as [d Hd]; [by left|]. cbn [collectEntries]. rewrite Hd.
    destruct (IH (acc ++ [DocCookie.mk e.1 d true "document.cookie"]))
      as (cookies & -> & Hall).
    { intros e' He'. apply Hdec. by right. }
    exists (DocCookie.mk e.1 d true "document.cookie" :: cookies).
    split; [by rewrite <- (assoc_L (++))|]. by constructor.
Qed.

Lemma collectEntries_first_failure page acc good (bad : string * string) rest
    reason :
  (∀ e, e ∈ good →
        ∃ d, decodeURIComponent page (beforeEquals e.2) = inr d) →
  decodeURIComponent page (beforeEquals bad.2) = inl reason →
  collectEntries page acc (good ++ bad :: rest) = inl reason.
Proof.
  revert acc. induction good as [|e good IH]; intros acc Hdec Hbad.
  - cbn [app collectEntries]. by rewrite Hbad.
  - destruct (Hdec e) as [d Hd]; [by left|].
    cbn [app collectEntries]. rewrite Hd. apply IH; [|done].
    intros e' He'. apply Hdec. by right.
Qed.

Lemma beforeEquals_id v : occurs "=" v = false → beforeEquals v = v.
Proof. intros Hv. unfold beforeEquals. by rewrite split_free. Qed.

(** X21: When the page's cookie string lists clean names and values, joined
    by a semicolon and a space, and every value decodes, the collector
    returns one cookie per entry, in order, with the name as written and
    the decoded value; a value is cut at its first equals sign, and only
    a value without equals sign is read in full. *)
Theorem getDocumentCookies_round_trip page entries :
  Forall cleanEntry entries →
  documentCookie page = inr (serialise entries) →
  (∀ e, e ∈ entries →
        ∃ d, decodeURIComponent page (beforeEquals e.2) = inr d) →
  ∃ cookies,
    getDocumentCookies page =
      DocumentData (href page) (hostname page) (protocol page) cookies
        (pageClockISO page) (navigatorUserAgent page)
        (navigatorCookieEnabled page) (isThirdPartyContext page)
    ∧ Forall2
        (λ e cookie,
           DocCookie.name cookie = e.1
           ∧ decodeURIComponent page (beforeEquals e.2)
             = inr (DocCookie.value cookie)
           ∧ (occurs "=" e.2 = false → beforeEquals e.2 = e.2)
           ∧ DocCookie.accessible cookie = true)
        entries cookies.
Proof.
  intros Hclean Hdoc Hdec.
  rewrite (getDocumentCookies_serialise page entries Hclean Hdoc).
  destruct (collectEntries_all_decoded page [] entries Hdec)
    as (cookies & -> & Hall).
  exists cookies. split; [done|].
  eapply Forall2_impl; [exact Hall|].
  intros e cookie (Hn & Hv & Ha). repeat split; try done.
  apply beforeEquals_id.
Qed.

Lemma getDocumentCookies_round_trip_witness :
  ∃ cookies,
    getDocumentCookies (shopPage (serialise [("sid", "abc"); ("token", "dG9rZW4=")]))
      = DocumentData "https://shop.example/cart" "shop.example" "https:" cookies
          "2024-05-01T10:00:00.000Z" "Mozilla/5.0" true false
    ∧ DocCookie.value <$> cookies = ["abc"; "dG9rZW4"].
Proof.
  assert (Forall cleanEntry [("sid", "abc"); ("token", "dG9rZW4=")]) as Hclean
    by (repeat constructor; done).
  destruct (getDocumentCookies_round_trip
              (shopPage (serialise [("sid", "abc"); ("token", "dG9rZW4=")]))
              [("sid", "abc"); ("token", "dG9rZW4=")] Hclean eq_refl)
    as (cookies & Hrun & _).
  { intros e He. apply list_elem_of_In in He.
    destruct He as [<-|[<-|[]]]; by eexists. }
  exists cookies. split; [exact Hrun|].
  vm_compute in Hrun. by injection Hrun as <-.
Defined.

(** X22: One value that does not decode loses every cookie: the collector
    returns the error object with the message of [decodeURIComponent],
    also when entries before and after the bad one are fine. *)
Theorem getDocumentCookies_bad_value page good (bad : string * string) rest
    reason :
  Forall cleanEntry (good ++ bad :: rest) →
  documentCookie page = inr (serialise (good ++ bad :: rest)) →
  (∀ e, e ∈ good →
        ∃ d, decodeURIComponent page (beforeEquals e.2) = inr d) →
  decodeURIComponent page (beforeEquals bad.2) = inl reason →
  getDocumentCookies page =
    DocumentError (errMessage reason) (href page) (pageClockISO page).
Proof.
  intros Hclean Hdoc Hgood Hbad.
  rewrite (getDocumentCookies_serialise page _ Hclean Hdoc).
  by rewrite (collectEntries_first_failure page [] good bad rest reason).
Qed.

Lemma getDocumentCookies_bad_value_witness :
  getDocumentCookies (shopPage (serialise ([("a", "1")] ++ ("b", "%") :: [("c", "3")])))
    = DocumentError "URI malformed" "https://shop.example/cart"
        "2024-05-01T10:00:00.000Z".
Proof.
  assert (Forall cleanEntry ([("a", "1")] ++ ("b", "%") :: [("c", "3")]))
    as Hclean by (repeat constructor; done).
  apply (getDocumentCookies_bad_value
           (shopPage (serialise ([("a", "1")] ++ ("b", "%") :: [("c", "3")])))
           [("a", "1")] ("b", "%") [("c", "3")]
           {| errName := "URIError"; errMessage := "URI malformed" |} Hclean
           eq_refl).
  - intros e He. apply list_elem_of_In in He. destruct He as [<-|[]].
    by eexists.
  - reflexivity.
Defined.

Lemma trimStart_head s c t : trimStart s = String c t → isWhiteSpace c = false.
Proof.
  induction s as [|c' s IH]; [done|]. simpl.
  destruct (isWhiteSpace c') eqn:Hc'; [done|]. by intros [= <- _].
Qed.

Lemma trimEnd_head s c t :
  isWhiteSpace c = false → ∃ t', trimEnd (String c t) = String c t'.
Proof. intros Hc. simpl. rewrite Hc. destruct (trimEnd t); by eexists. Qed.

Lemma trim_head s c t : trim s = String c t → isWhiteSpace c = false.
Proof.
  unfold trim. destruct (trimStart s) as [|c' t'] eqn:Hs; [done|].
  pose proof (trimStart_head _ _ _ Hs) as Hc'.
  destruct (trimEnd_head s c' t' Hc') as [t'' ->]. by intros [= <- _].
Qed.

Lemma pairName_trim segment : pairName segment ≠ "" → trim (pairName segment) ≠ "".
Proof.
  unfold pairName. destruct (trim segment) as [|c t] eqn:Hq; [done|].
  pose proof (trim_head _ _ _ Hq) as Hc. simpl.
  case_decide; [by intros []|].
  assert (∀ w, trim (String c w) ≠ "") as Hne.
  { intros w. unfold trim. simpl. rewrite Hc.
    destruct (trimEnd_head w c w Hc) as [t' Ht]. by rewrite Ht. }
  destruct (split "=" t) as [|w ws]; intros _; apply Hne.
Qed.

Lemma collectPair_name page acc segment cookies :
  collectPair page acc segment = inr cookies →
  DocCookie.name <$> cookies =
    (DocCookie.name <$> acc)
    ++ (if accepted segment then [trim (pairName segment)] else []).
Proof.
  unfold collectPair, accepted, pairName, pairValue. cbv zeta.
  destruct (split "=" (trim segment) !! 1%nat) as [value|].
  - case_bool_decide; simpl.
    + destruct (decodeURIComponent page value); [done|].
      intros [= <-]. by rewrite fmap_app.
    + intros [= <-]. by rewrite (right_id_L [] (++)).
  - intros [= <-]. by rewrite andb_false_r, (right_id_L [] (++)).
Qed.

Lemma collectPairs_names page acc segments cookies :
  collectPairs page acc segments = inr cookies →
  DocCookie.name <$> cookies =
    (DocCookie.name <$> acc)
    ++ ((λ p, trim (pairName p)) <$> List.filter accepted segments).
Proof.
  revert acc. induction segments as [|p segments IH]; intros acc; simpl.
  - intros [= <-]. by rewrite (right_id_L [] (++)).
  - destruct (collectPair page acc p) as [?|acc'] eqn:Hp; [done|].
    intros Hrest. rewrite (IH _ Hrest), (collectPair_name _ _ _ _ Hp).
    rewrite <- (assoc_L (++)). by destruct (accepted p).
Qed.

Lemma analyzeCookies_names cookieString domain :
  Analyzed.name <$> Analysis.cookies (analyzeCookies cookieString domain) =
    List.filter (λ n, bool_decide (n ≠ ""))
      ((λ p, trim (pairName p)) <$> split ";" cookieString).
Proof.
  unfold analyzeCookies. cbn [Analysis.cookies].
  induction (split ";" cookieString) as [|p segments IH]; [done|].
  csimpl. fold (pairName p). case_bool_decide; csimpl; by rewrite IH.
Qed.

Lemma accepted_names_sublist segments :
  (λ p, trim (pairName p)) <$> List.filter accepted segments
  `sublist_of`
  List.filter (λ n, bool_decide (n ≠ ""))
    ((λ p, trim (pairName p)) <$> segments).
Proof.
  induction segments as [|p segments IH]; [done|]. csimpl.
  destruct (accepted p) eqn:Hp.
  - apply andb_true_iff in Hp as [Hn%bool_decide_eq_true_1 _].
    rewrite bool_decide_eq_true_2 by (by apply pairName_trim).
    csimpl. by apply sublist_skip.
  - case_bool_decide; [by apply sublist_cons|done].
Qed.

(** X23: Every cookie that the collector reports is also listed, in the same
    order, by the debugging helper [analyzeCookies] for the same cookie
    string; the helper lists in addition the names without equals sign,
    never an empty name, and its totalSize is the length of the string. *)
Theorem analyzeCookies_covers_collector page cookieString domain
    url dom proto cookies stamp agent enabled third :
  documentCookie page = inr cookieString →
  getDocumentCookies page
    = DocumentData url dom proto cookies stamp agent enabled third →
  let analysis := analyzeCookies cookieString domain in
  DocCookie.name <$> cookies
    `sublist_of` Analyzed.name <$> Analysis.cookies analysis
  ∧ (length cookies ≤ Analysis.count analysis)%nat
  ∧ Forall (λ a : Analyzed.t, Analyzed.name a ≠ "") (Analysis.cookies analysis)
  ∧ Analysis.totalSize analysis = String.length cookieString.
Proof.
  intros Hdoc Hrun analysis.
  assert (DocCookie.name <$> cookies
          `sublist_of` Analyzed.name <$> Analysis.cookies analysis) as Hsub.
  { unfold analysis. rewrite analyzeCookies_names.
    unfold getDocumentCookies in Hrun. rewrite Hdoc in Hrun.
    case_bool_decide as Hne.
    - destruct (collectPairs page [] (split ";" cookieString))
        as [?|cs] eqn:Hc; [done|].
      injection Hrun as _ _ _ <- _ _ _ _.
      rewrite (collectPairs_names _ _ _ _ Hc). apply accepted_names_sublist.
    - injection Hrun as _ _ _ <- _ _ _ _. apply sublist_nil_l. }
  split; [exact Hsub|]. split.
  - apply sublist_length in Hsub. by rewrite !length_fmap in Hsub.
  - split; [|done]. unfold analysis, analyzeCookies. cbn [Analysis.cookies].
    apply Forall_forall. intros a Ha%list_elem_of_In%filter_In.
    destruct Ha as [_ Ha]. by apply bool_decide_eq_true_1 in Ha.
Qed.

Lemma analyzeCookies_covers_collector_witness :
  DocCookie.name <$> [DocCookie.mk "a" "1" true "document.cookie";
                      DocCookie.mk "c" "3" true "document.cookie"]
    `sublist_of`
    Analyzed.name <$> Analysis.cookies (analyzeCookies "a=1; b; c=3" "shop.example").
Proof.
  exact (proj1 (analyzeCookies_covers_collector (shopPage "a=1; b; c=3")
                  "a=1; b; c=3" "shop.example" _ _ _ _ _ _ _ _
                  eq_refl eq_refl)).
Defined.
End DocumentCookie.

(** ** The popup: the size of the log panel *)

Section LogPanel.
Implicit Types (nodes : list Node) (entries : list (string * string * string)).

Lemma childrenLength_elements nodes :
  Forall (λ node, isElement node = true) nodes →
  childrenLength nodes = length nodes.
Proof.
  unfold childrenLength. induction 1 as [|node nodes Hn _ IH]; [done|].
  simpl. rewrite Hn. simpl. by rewrite IH.
Qed.

Lemma childrenLength_app nodes nodes' :
  childrenLength (nodes ++ nodes') =
    (childrenLength nodes + childrenLength nodes')%nat.
Proof. unfold childrenLength. by rewrite List.filter_app, length_app. Qed.

(** X24: On a panel that holds only entries, at most 50 of them, [log] puts
    the new entry last and keeps the limit: below 50 nothing is removed,
    at 50 the oldest entry goes. *)
Theorem log_keeps_limit (timestamp message type : string) nodes :
  Forall (λ node, isElement node = true) nodes →
  (length nodes ≤ 50)%nat →
  let entry := ElementNode (logEntryHTML timestamp message type) in
  log timestamp message type nodes
    = (if decide (length nodes = 50)%nat then drop 1 nodes else nodes) ++ [entry]
  ∧ Forall (λ node, isElement node = true) (log timestamp message type nodes)
  ∧ (length (log timestamp message type nodes) ≤ 50)%nat
  ∧ last (log timestamp message type nodes) = Some entry.
Proof.
  intros Hel Hlen entry.
  assert (log timestamp message type nodes
          = (if decide (length nodes = 50)%nat then drop 1 nodes else nodes)
            ++ [entry]) as Hlog.
  { unfold log. cbv zeta. fold entry.
    rewrite childrenLength_app, (childrenLength_elements nodes Hel).
    change (childrenLength [entry]) with 1%nat.
    case_decide as H50.
    - rewrite H50. simpl. destruct nodes; [done|]. done.
    - destruct (Nat.ltb_spec 50 (length nodes + 1)); [lia|done]. }
  rewrite Hlog. split; [done|]. split; [|split].
  - apply Forall_app. split; [|by repeat constructor].
    case_decide; [by apply Forall_drop|done].
  - rewrite length_app. case_decide; [rewrite length_drop|]; simpl; lia.
  - by rewrite last_snoc.
Qed.

Lemma log_keeps_limit_witness :
  log "10:00:01" "ready" "info" [ElementNode "first"]
    = [ElementNode "first"; ElementNode (logEntryHTML "10:00:01" "ready" "info")].
Proof.
  assert (Forall (λ node, isElement node = true) [ElementNode "first"]) as H
    by (by repeat constructor).
  assert (length [ElementNode "first"] ≤ 50)%nat as H' by (simpl; lia).
  exact (proj1 (log_keeps_limit "10:00:01" "ready" "info" _ H H')).
Defined.

Lemma afterClear_log k nodes (timestamp message type : string) :
  afterClear k nodes → afterClear (S k) (log timestamp message type nodes).
Proof.
  intros [(Hk & es & -> & Hes & Hlen)|(Hk & Hall & Hlen)]; unfold log; cbv zeta.
  - rewrite !childrenLength_app, (childrenLength_elements es Hes), Hlen.
    change (childrenLength clearLogs) with 0%nat.
    change (childrenLength [ElementNode _]) with 1%nat.
    destruct (Nat.ltb_spec 50 (0 + k + 1)) as [Hgt|Hle].
    + right. split; [lia|]. unfold clearLogs. cbn [app drop].
      rewrite drop_0.
      split; [apply Forall_app; split; [done|by repeat constructor]|].
      rewrite length_app. simpl. lia.
    + left. split; [lia|]. exists (es ++ [ElementNode (logEntryHTML timestamp message type)]).
      split; [by rewrite (assoc_L (++))|].
      split; [apply Forall_app; split; [done|by repeat constructor]|].
      rewrite length_app. simpl. lia.
  - rewrite childrenLength_app, (childrenLength_elements nodes Hall), Hlen.
    change (childrenLength [ElementNode _]) with 1%nat. cbn [Nat.ltb Nat.leb Nat.add].
    right. split; [lia|]. split.
    + apply Forall_drop, Forall_app. split; [done|by repeat constructor].
    + rewrite length_drop, length_app. simpl. lia.
Qed.

Lemma afterClear_logAll entries k nodes :
  afterClear k nodes →
  afterClear (k + length entries) (logAll entries nodes).
Proof.
  revert k nodes. induction entries as [|e entries IH]; intros k nodes Hk.
  - by rewrite Nat.add_0_r.
  - cbn [logAll foldl length]. rewrite Nat.add_succ_r.
    apply (IH (S k)). by apply afterClear_log.
Qed.

(** X25: After [clearLogs], which leaves a text node in the panel, the number
    of entries shown after [n] calls of [log] is [n] up to 51 and stays
    51 from then on: the text node is removed in place of the first
    entry, so one entry more than the limit of 50 remains. *)
Theorem log_after_clearLogs entries :
  childrenLength (logAll entries clearLogs) = (length entries `min` 51)%nat
  ∧ (51 ≤ length entries →
     Forall (λ node, isElement node = true) (logAll entries clearLogs)
     ∧ length (logAll entries clearLogs) = 51)%nat.
Proof.
  assert (afterClear 0 clearLogs) as H0.
  { left. split; [lia|]. exists []. by repeat split. }
  pose proof (afterClear_logAll entries 0 clearLogs H0) as Hinv.
  rewrite Nat.add_0_l in Hinv.
  destruct Hinv as [(Hk & es & -> & Hes & Hlen)|(Hk & Hall & Hlen)].
  - split; [|lia]. rewrite childrenLength_app, (childrenLength_elements es Hes).
    change (childrenLength clearLogs) with 0%nat. lia.
  - split; [|done]. rewrite (childrenLength_elements _ Hall). lia.
Qed.
End LogPanel.

(** ** Precedence in a merged list, and the availability check *)

Section Precedence.
Implicit Types (w : World) (h : list Event).

(** X26: Deduplicating two lists laid end to end keeps the deduplicated first
    list as it is and appends those cookies of the second whose key is
    new: on a shared key the cookie of the first list wins. So in a
    domain extraction the cookies of the host name take precedence over
    those of the parent domain. *)
Theorem removeDuplicateCookies_append (l1 l2 : list Cookie.t) :
  ∃ fresh,
    removeDuplicateCookies (l1 ++ l2) = removeDuplicateCookies l1 ++ fresh
    ∧ fresh `sublist_of` l2
    ∧ (∀ c, c ∈ fresh → cookieKey c ∉ cookieKey <$> l1)
    ∧ (∀ c, c ∈ l2 → cookieKey c ∉ cookieKey <$> l1 →
            cookieKey c ∈ cookieKey <$> fresh).
Proof.
  exists (filterUnseen (list_to_set (cookieKey <$> l1)) l2).
  split.
  { unfold removeDuplicateCookies.
    by rewrite filterUnseen_app, (right_id_L ∅ (∪)). }
  split; [apply filterUnseen_sublist|]. split.
  - intros c Hc%filterUnseen_fresh. by rewrite elem_of_list_to_set in Hc.
  - intros c Hc Hnew.
    destruct (filterUnseen_keys (list_to_set (cookieKey <$> l1)) l2
                (cookieKey c)) as [Hin|Hin]; [by apply list_elem_of_fmap_2| |done].
    by rewrite elem_of_list_to_set in Hin.
Qed.

(** X27: [checkServerAvailability] never throws and sends exactly one probe;
    it answers true exactly when the probe came back with a success
    status, so a rejection (network failure, or the abort after three
    seconds) reads as "not available". *)
Theorem checkServerAvailability_answers w h :
  ∃ available,
    checkServerAvailability w h = (inr available, h ++ [EvStatusProbe])
    ∧ (available = true
       ↔ ∃ response, fetchStatus w h = Resolved response ∧ ok response = true)
    ∧ (∀ reason, fetchStatus w h = Rejected reason → available = false).
Proof.
  exists (probeSucceeds (fetchStatus w h)).
  split; [apply checkServerAvailability_run|].
  destruct (fetchStatus w h) as [response|reason]; simpl.
  - split; [|done]. split; [by exists response|]. by intros (? & [= <-] & ?).
  - split; [|done]. split; [done|]. by intros (? & ? & _).
Qed.
End Precedence.
